(** * The table engine of cete (table.go): versioned writes, secondary-index
    maintenance and range scans, embedded as pure functions over an explicit
    store. *)

From Stdlib Require Import List String Ascii ZArith Lia Bool Arith Permutation.
From Stdlib Require Import Sorted.
From Stdlib Require OrderedTypeEx.
Import ListNotations.
Open Scope string_scope.
Open Scope list_scope.

(** Go's [[]byte] and [string] are both sequences of bytes; [[]byte(key)] and
    [string(b)] are the identity on the content. *)
Definition bytes := string.
Definition Name := string.

(** ** Errors and results *)

(** The error values that travel through table.go.  [ErrNew msg] is
    [errors.New(msg)]; [ErrForeign tag] stands for an error value made outside
    this file (the codec's encode and decode errors, or whatever a caller's
    modifier returns). *)
Inductive error : Type :=
| ErrNotFound
| ErrCounterChanged
| ErrEndOfRange
| ErrNew (msg : string)
| ErrForeign (tag : string).

(** What a call does: it returns, it panics (a nil dereference), or the
    fuel given to its retry loop ran out. *)
Inductive res (A : Type) : Type :=
| Done (a : A)
| Panic
| Timeout.
Arguments Done {A} a.
Arguments Panic {A}.
Arguments Timeout {A}.

Definition bind {A B : Type} (m : res A) (f : A -> res B) : res B :=
  match m with
  | Done a => f a
  | Panic => Panic
  | Timeout => Timeout
  end.

Notation "x <- m ;; k" := (bind m (fun x => k))
  (at level 61, m at next level, right associativity).

(** A decoded value or an error, as [msgpack.Marshal] and
    [msgpack.Unmarshal] return them. *)
Inductive result (A : Type) : Type :=
| Ok (a : A)
| Err (e : error).
Arguments Ok {A} a.
Arguments Err {A} e.

(** ** Byte-ordered association lists *)

Module Assoc.
Section Assoc.
Context {A : Type}.

Fixpoint find (k : bytes) (l : list (bytes * A)) : option A :=
  match l with
  | [] => None
  | (k', a) :: r => if String.eqb k k' then Some a else find k r
  end.

(** Insertion keeps the keys in ascending byte order and replaces the
    entry of an equal key. *)
Fixpoint put (k : bytes) (a : A) (l : list (bytes * A)) : list (bytes * A) :=
  match l with
  | [] => [(k, a)]
  | (k', a') :: r =>
      match String.compare k k' with
      | Lt => (k, a) :: l
      | Eq => (k, a) :: r
      | Gt => (k', a') :: put k a r
      end
  end.

Fixpoint del (k : bytes) (l : list (bytes * A)) : list (bytes * A) :=
  match l with
  | [] => []
  | (k', a') :: r =>
      if String.eqb k k' then del k r else (k', a') :: del k r
  end.

Definition keys (l : list (bytes * A)) : list bytes := map fst l.
End Assoc.
End Assoc.

(** ** The sorted key-value primitive *)

(** Modelled from the spec: the Sorted KV Primitive (the badger [KV] and its
    iterator), which table.go calls but does not define.  It is an ordered
    byte-key store; every stored value carries a 16-bit counter that is
    bumped by one on each successful mutation of its key; compare-and-set and
    compare-and-delete mutate a key only when its current counter matches the
    expected one and report [CasMismatch] otherwise; a key that holds nothing
    has no counter, reads back with a nil value and the zero counter of a
    fresh [KVItem], and matches no expected counter.  The model is
    sequential and in memory: it has no I/O failures. *)
Module KV.

Record KVItem : Type := { Value : option bytes; Counter : Z }.

Definition store : Type := list (bytes * (bytes * Z)).

Definition empty : store := [].

Definition next_counter (c : Z) : Z := ((c + 1) mod 65536)%Z.

Definition Get (s : store) (k : bytes) : KVItem :=
  match Assoc.find k s with
  | Some (v, c) => {| Value := Some v; Counter := c |}
  | None => {| Value := None; Counter := 0%Z |}
  end.

(** [Set] is a reserved word here, hence the underscore. *)
Definition Set_ (s : store) (k v : bytes) : store :=
  Assoc.put k (v, next_counter (Counter (Get s k))) s.

Definition Delete (s : store) (k : bytes) : store := Assoc.del k s.

Inductive outcome : Type :=
| Written (s : store)
| CasMismatch.

Definition CompareAndSet (s : store) (k v : bytes) (c : Z) : outcome :=
  match Assoc.find k s with
  | Some (_, c') =>
      if (c' =? c)%Z then Written (Assoc.put k (v, next_counter c') s)
      else CasMismatch
  | None => CasMismatch
  end.

Definition CompareAndDelete (s : store) (k : bytes) (c : Z) : outcome :=
  match Assoc.find k s with
  | Some (_, c') =>
      if (c' =? c)%Z then Written (Assoc.del k s) else CasMismatch
  | None => CasMismatch
  end.

(** An iterator walks a snapshot of the store in its scan direction:
    [scan] is every entry in that direction, [rest] what lies at and after
    the current position. *)
Record Iterator : Type :=
  { Reverse : bool;
    scan : list (bytes * (bytes * Z));
    rest : list (bytes * (bytes * Z)) }.

Definition NewIterator (s : store) (reverse : bool) : Iterator :=
  {| Reverse := reverse;
     scan := if reverse then rev s else s;
     rest := [] |}.

Definition Rewind (it : Iterator) : Iterator :=
  {| Reverse := Reverse it; scan := scan it; rest := scan it |}.

(** Is the entry key [k'] still short of the sought key in the scan
    direction? *)
Definition before (reverse : bool) (k k' : bytes) : bool :=
  match String.compare k' k with
  | Lt => negb reverse
  | Eq => false
  | Gt => reverse
  end.

Fixpoint skip (reverse : bool) (k : bytes) (l : list (bytes * (bytes * Z)))
  : list (bytes * (bytes * Z)) :=
  match l with
  | [] => []
  | e :: r => if before reverse k (fst e) then skip reverse k r else l
  end.

(** Forward, [Seek k] stops at the first key at or above [k]; in reverse,
    at the last key at or below [k]. *)
Definition Seek (it : Iterator) (k : bytes) : Iterator :=
  {| Reverse := Reverse it; scan := scan it;
     rest := skip (Reverse it) k (scan it) |}.

Definition Valid (it : Iterator) : bool :=
  match rest it with [] => false | _ :: _ => true end.

Definition Next (it : Iterator) : Iterator :=
  {| Reverse := Reverse it; scan := scan it; rest := tl (rest it) |}.

End KV.

(** ** The value codec and the canonical byte form *)

(** What table.go takes from outside, as an interface: the values a caller
    hands in ([interface{}]), their msgpack encoding, the field-path query on
    encoded bytes, the canonical byte form [valueToBytes], the two sentinel
    bounds, Go's [==] on interface values, and the encoding of the key list
    an index bucket stores. *)
Class Codec : Type :=
  { Any : Type;
    MinBounds : Any;
    MaxBounds : Any;
    Any_eqb : Any -> Any -> bool;
    Marshal : Any -> result bytes;
    Query : bytes -> Name -> option (list Any);
    valueToBytes : Any -> bytes;
    marshalKeys : list string -> bytes;
    unmarshalKeys : bytes -> result (list string) }.

(** The part of the codec contract the index engine relies on: [==]
    decides equality and a bucket's key list survives a round trip. *)
Class CodecLaws (C : Codec) : Prop :=
  { Any_eqb_eq : forall x y : Any, Any_eqb x y = true <-> x = y;
    unmarshal_marshalKeys :
      forall l : list string, unmarshalKeys (marshalKeys l) = Ok l }.

(** ** table.go *)

Section TableEngine.
Context {C : Codec}.

(** A table owns its document keyspace and one keyspace per declared
    index; an [*Index] is identified with the keyspace it points to. *)
Record Table : Type :=
  { indexes : list (Name * KV.store);
    data : KV.store }.

Definition uint16 (z : Z) : Z := (z mod 65536)%Z.

(** A nil slice has length 0 and reads as the empty slice. *)
Definition sliceOf (v : option bytes) : bytes :=
  match v with Some b => b | None => EmptyString end.

Definition Index (t : Table) (index : string) : option KV.store :=
  Assoc.find index (indexes t).

(** Writing through an [*Index]: the map keeps its keys, the keyspace
    behind one of them changes. *)
Fixpoint setIndex (index : Name) (ix : KV.store)
    (l : list (Name * KV.store)) : list (Name * KV.store) :=
  match l with
  | [] => []
  | (n, ix0) :: r =>
      if String.eqb index n then (n, ix) :: r
      else (n, ix0) :: setIndex index ix r
  end.

Definition withIndex (t : Table) (index : Name) (ix : KV.store) : Table :=
  {| indexes := setIndex index ix (indexes t); data := data t |}.

Definition withData (t : Table) (d : KV.store) : Table :=
  {| indexes := indexes t; data := d |}.

(** [Get]: [decode] is [msgpack.Unmarshal] into the caller's [dst]. *)
Definition Get {D : Type} (t : Table) (key : string)
    (decode : bytes -> result D) : Z * result D :=
  let item := KV.Get (data t) key in
  match KV.Value item with
  | None => (0%Z, Err ErrNotFound)
  | Some raw => (KV.Counter item, decode raw)
  end.

Record diffEntry : Type :=
  { indexName : string;
    indexKey : bytes }.

Definition found (aa : bytes) (b : list bytes) : bool :=
  existsb (fun bb => String.eqb bb aa) b.

Fixpoint getOneWayDiffs (indexName : string) (a b : list bytes)
  : list diffEntry :=
  match a with
  | [] => []
  | aa :: a' =>
      if found aa b then getOneWayDiffs indexName a' b
      else {| indexName := indexName; indexKey := aa |}
             :: getOneWayDiffs indexName a' b
  end.

(** The canonical index keys of one payload under one index: the query's
    error is dropped, a nil result or an empty payload yields nothing. *)
Definition indexValues (indexName : Name) (raw : bytes) : list bytes :=
  let rawValues :=
    match Query raw indexName with
    | None => []
    | Some l => if (String.length raw =? 0)%nat then [] else l
    end in
  map valueToBytes rawValues.

(** [order] is the order in which [range t.indexes] visits the index
    names on this call; Go leaves it unspecified and varies it from one
    loop to the next. *)
Definition diffIndexes (order : list Name) (old new : bytes)
  : list diffEntry * list diffEntry :=
  fold_left
    (fun (acc : list diffEntry * list diffEntry) (indexName : Name) =>
       let (additions, removals) := acc in
       let oldValues := indexValues indexName old in
       let newValues := indexValues indexName new in
       (additions ++ getOneWayDiffs indexName newValues oldValues,
        removals ++ getOneWayDiffs indexName oldValues newValues))
    order ([], []).

(** The scan of [deleteFromIndex]: drop the first occurrence of [key];
    [None] when it is not there. *)
Fixpoint removeFirst (key : string) (lst : list string)
  : option (list string) :=
  match lst with
  | [] => None
  | v :: r =>
      if String.eqb v key then Some r
      else match removeFirst key r with
           | Some r' => Some (v :: r')
           | None => None
           end
  end.

Fixpoint deleteFromIndex (fuel : nat) (i : KV.store) (indexKey : bytes)
    (key : string) : res (KV.store * option error) :=
  match fuel with
  | O => Timeout
  | S fuel' =>
      let item := KV.Get i indexKey in
      match KV.Value item with
      | None => Done (i, None)
      | Some raw =>
          match unmarshalKeys raw with
          | Err e => Done (i, Some e)
          | Ok lst =>
              match removeFirst key lst with
              | None => Done (i, None)
              | Some lst' =>
                  match lst' with
                  | [] =>
                      match KV.CompareAndDelete i indexKey (KV.Counter item) with
                      | KV.CasMismatch =>
                          deleteFromIndex fuel' i indexKey key
                      | KV.Written i' => Done (i', None)
                      end
                  | _ :: _ =>
                      match KV.CompareAndSet i indexKey (marshalKeys lst')
                              (KV.Counter item) with
                      | KV.CasMismatch =>
                          deleteFromIndex fuel' i indexKey key
                      | KV.Written i' => Done (i', None)
                      end
                  end
              end
          end
      end
  end.

Fixpoint addToIndex (fuel : nat) (i : KV.store) (indexKey : bytes)
    (key : string) : res (KV.store * option error) :=
  match fuel with
  | O => Timeout
  | S fuel' =>
      let item := KV.Get i indexKey in
      let decoded :=
        match KV.Value item with
        | None => Ok []
        | Some raw => unmarshalKeys raw
        end in
      match decoded with
      | Err e => Done (i, Some e)
      | Ok lst =>
          if existsb (fun item => String.eqb item key) lst
          then Done (i, None)
          else
            let data := marshalKeys (lst ++ [key]) in
            match KV.Value item with
            | Some _ =>
                match KV.CompareAndSet i indexKey data (KV.Counter item) with
                | KV.CasMismatch => addToIndex fuel' i indexKey key
                | KV.Written i' => Done (i', None)
                end
            | None => Done (KV.Set_ i indexKey data, None)
            end
      end
  end.

(** One of the two loops of [updateIndex]: [op] is [deleteFromIndex] or
    [addToIndex].  [t.Index] of a name that is not declared is nil, and the
    call through it dereferences nil. *)
Fixpoint forEntries
    (op : KV.store -> bytes -> string -> res (KV.store * option error))
    (entries : list diffEntry) (key : string) (t : Table)
    (lastError : option error) : res (Table * option error) :=
  match entries with
  | [] => Done (t, lastError)
  | e :: es =>
      match Index t (indexName e) with
      | None => Panic
      | Some i =>
          r <- op i (indexKey e) key ;;
          forEntries op es key (withIndex t (indexName e) (fst r))
            (match snd r with Some err => Some err | None => lastError end)
      end
  end.

Definition updateIndex (fuel : nat) (order : list Name) (t : Table)
    (key : string) (old new : bytes) : res (Table * option error) :=
  let (additions, removals) := diffIndexes order old new in
  r <- forEntries (deleteFromIndex fuel) removals key t None ;;
  forEntries (addToIndex fuel) additions key (fst r) (snd r).

(** [Set]; [counter] is the variadic [counter ...int]. *)
Definition Set_ (fuel : nat) (order : list Name) (t : Table) (key : string)
    (value : Any) (counter : list Z) : res (Table * option error) :=
  let item := KV.Get (data t) key in
  let stale :=
    match counter with
    | c :: _ => negb (KV.Counter item =? uint16 c)%Z
    | [] => false
    end in
  if stale then Done (t, Some ErrCounterChanged)
  else
    match Marshal value with
    | Err e => Done (t, Some e)
    | Ok encoded =>
        let written :=
          match counter with
          | c :: _ => KV.CompareAndSet (data t) key encoded (uint16 c)
          | [] => KV.Written (KV.Set_ (data t) key encoded)
          end in
        match written with
        | KV.CasMismatch => Done (t, Some ErrCounterChanged)
        | KV.Written d =>
            r <- updateIndex fuel order (withData t d) key
                   (sliceOf (KV.Value item)) encoded ;;
            Done (fst r, None)
        end
    end.

Definition Delete (fuel : nat) (order : list Name) (t : Table)
    (key : string) (counter : list Z) : res (Table * option error) :=
  let item := KV.Get (data t) key in
  match KV.Value item with
  | None => Done (t, None)
  | Some _ =>
      let stale :=
        match counter with
        | c :: _ => negb (KV.Counter item =? c)%Z
        | [] => false
        end in
      if stale then Done (t, Some ErrCounterChanged)
      else
        let written :=
          match counter with
          | c :: _ => KV.CompareAndDelete (data t) key (uint16 c)
          | [] => KV.Written (KV.Delete (data t) key)
          end in
        match written with
        | KV.CasMismatch => Done (t, Some ErrCounterChanged)
        | KV.Written d =>
            r <- updateIndex fuel order (withData t d) key
                   (sliceOf (KV.Value item)) (sliceOf None) ;;
            Done (fst r, None)
        end
  end.

(** What [Update] asks of [reflect.TypeOf(handler)]. *)
Inductive Kind : Type := Func | OtherKind.

Record HandlerType : Type :=
  { kind : Kind;
    NumIn : nat;
    NumOut : nat;
    Out1ImplementsError : bool }.

(** A non-nil [handler]: its type, [msgpack.Unmarshal] into a fresh value
    of its input type, and what calling it returns ([result[0]] and
    [result[1]], the latter nil or an error). *)
Record Handler : Type :=
  { handlerType : HandlerType;
    decodeIn0 : bytes -> result Any;
    Call : Any -> Any * option error }.

(** The retry loop of [Update]; [n] bounds its own iterations, [fuel] is
    handed to [Set]. *)
Fixpoint updateLoop (n fuel : nat) (order : list Name) (t : Table)
    (key : string) (h : Handler) : res (Table * option error) :=
  match n with
  | O => Timeout
  | S n' =>
      let (counter, doc) := Get t key (decodeIn0 h) in
      match doc with
      | Err err => Done (t, Some err)
      | Ok doc =>
          let result := Call h doc in
          match snd result with
          | Some abort => Done (t, Some abort)
          | None =>
              r <- Set_ fuel order t key (fst result) [counter] ;;
              match snd r with
              | Some ErrCounterChanged =>
                  updateLoop n' fuel order (fst r) key h
              | err => Done (fst r, err)
              end
          end
      end
  end.

(** [Update]; a nil [handler] is [None]: [reflect.TypeOf(nil)] is the nil
    [Type], and [handlerType.Kind()] on it dereferences nil. *)
Definition Update (fuel : nat) (order : list Name) (t : Table)
    (key : string) (handler : option Handler)
  : res (Table * option error) :=
  match handler with
  | None => Panic
  | Some h =>
      let handlerType := handlerType h in
      match kind handlerType with
      | OtherKind =>
          Done (t, Some (ErrNew "cete: handler must be a function"))
      | Func =>
          if negb (NumIn handlerType =? 1)%nat then
            Done (t, Some (ErrNew "cete: handler must have 1 input argument"))
          else if negb (NumOut handlerType =? 2)%nat then
            Done (t, Some (ErrNew "cete: handler must have 2 return values"))
          else if negb (Out1ImplementsError handlerType) then
            Done (t, Some (ErrNew
              "cete: handler must have error as last return value"))
          else updateLoop fuel fuel order t key h
      end
  end.

(** What one pull of a range hands out. *)
Record row : Type :=
  { rowKey : string;
    rowValue : option bytes;
    rowCounter : Z;
    rowErr : option error }.

Definition endOfRange : row :=
  {| rowKey := EmptyString; rowValue := None; rowCounter := 0%Z;
     rowErr := Some ErrEndOfRange |}.

(** The variables the closure of [Between] captures. *)
Record Range : Type :=
  { it : KV.Iterator;
    shouldReverse : bool;
    lower : Any;
    upper : Any;
    lowerBytes : bytes;
    upperBytes : bytes }.

(** [Between]; [reverse] is the variadic [reverse ...bool]. *)
Definition Between (t : Table) (lower upper : Any) (reverse : list bool)
  : Range :=
  let shouldReverse :=
    match reverse with
    | b :: _ => b
    | [] => false
    end in
  let it := KV.NewIterator (data t) shouldReverse in
  let upperBytes := valueToBytes upper in
  let lowerBytes := valueToBytes lower in
  let it :=
    if negb shouldReverse then
      if Any_eqb lower MinBounds then KV.Rewind it
      else KV.Seek it lowerBytes
    else
      if Any_eqb upper MaxBounds then KV.Rewind it
      else KV.Seek it upperBytes in
  {| it := it; shouldReverse := shouldReverse;
     lower := lower; upper := upper;
     lowerBytes := lowerBytes; upperBytes := upperBytes |}.

Definition isGt (c : comparison) : bool :=
  match c with Gt => true | _ => false end.

Definition isLt (c : comparison) : bool :=
  match c with Lt => true | _ => false end.

(** The closure handed to [newRange]: every path through the body of its
    [for it.Valid()] returns, so the loop is a conditional. *)
Definition next (r : Range) : row * Range :=
  match KV.rest (it r) with
  | [] => (endOfRange, r)
  | (k, (v, c)) :: _ =>
      if negb (shouldReverse r) && negb (Any_eqb (upper r) MaxBounds)
         && isGt (String.compare k (upperBytes r))
      then (endOfRange, r)
      else if shouldReverse r && negb (Any_eqb (lower r) MinBounds)
              && isLt (String.compare k (lowerBytes r))
      then (endOfRange, r)
      else
        ({| rowKey := k; rowValue := Some v; rowCounter := c;
            rowErr := None |},
         {| it := KV.Next (it r); shouldReverse := shouldReverse r;
            lower := lower r; upper := upper r;
            lowerBytes := lowerBytes r; upperBytes := upperBytes r |})
  end.

(** Modelled from the spec: [newRange] and the range's pulls, which
    table.go uses but does not define.  The range is the lazy sequence of
    what the closure returns, one call for each pull. *)
Fixpoint pulls (n : nat) (r : Range) : list row :=
  match n with
  | O => []
  | S n' => fst (next r) :: pulls n' (snd (next r))
  end.

Definition All (t : Table) (reverse : list bool) : Range :=
  Between t MinBounds MaxBounds reverse.

(** ** Sequences of writes *)

Inductive op : Type :=
| OpSet (key : string) (value : Any) (counter : list Z) (order : list Name)
| OpDelete (key : string) (counter : list Z) (order : list Name).

Definition opOrder (o : op) : list Name :=
  match o with
  | OpSet _ _ _ order => order
  | OpDelete _ _ order => order
  end.

Definition step (fuel : nat) (t : Table) (o : op)
  : res (Table * option error) :=
  match o with
  | OpSet key value counter order => Set_ fuel order t key value counter
  | OpDelete key counter order => Delete fuel order t key counter
  end.

(** Run the operations one after the other; the result is the final
    table and what each call returned. *)
Fixpoint run (fuel : nat) (ops : list op) (t : Table)
  : res (Table * list (option error)) :=
  match ops with
  | [] => Done (t, [])
  | o :: ops' =>
      r <- step fuel t o ;;
      r' <- run fuel ops' (fst r) ;;
      Done (fst r', snd r :: snd r')
  end.

(** A new table: no documents, an empty keyspace for each declared
    index. *)
Definition newTable (names : list Name) : Table :=
  {| indexes := map (fun n => (n, KV.empty)) names; data := KV.empty |}.

(** ** The index invariant *)

(** The keys an index bucket lists; nothing when the bucket is not stored
    or does not decode. *)
Definition bucket (i : KV.store) (indexKey : bytes) : list string :=
  match KV.Value (KV.Get i indexKey) with
  | None => []
  | Some raw =>
      match unmarshalKeys raw with
      | Ok l => l
      | Err _ => []
      end
  end.

(** The encoded document a key holds now; the nil slice when it holds
    none. *)
Definition current (t : Table) (key : string) : bytes :=
  sliceOf (KV.Value (KV.Get (data t) key)).

(** [order] is a possible visiting order of [range t.indexes]: each
    declared name once. *)
Definition rangeOrder (t : Table) (order : list Name) : Prop :=
  Permutation order (Assoc.keys (indexes t)).

(** Key [k] sits in exactly the buckets its current document yields. *)
Definition indexExact (t : Table) : Prop :=
  forall (name : Name) (i : KV.store) (k : string) (v : bytes),
    Index t name = Some i ->
    (In k (bucket i v) <-> In v (indexValues name (current t k))).

(** Every bucket of one index keyspace decodes to a list without
    repetition. *)
Definition decodes (i : KV.store) : Prop :=
  forall (v raw : bytes) (c : Z),
    Assoc.find v i = Some (raw, c) ->
    exists l, unmarshalKeys raw = Ok l /\ NoDup l.

(** Every stored bucket decodes to a list without repetition. *)
Definition bucketsDecode (t : Table) : Prop :=
  forall (name : Name) (i : KV.store),
    Index t name = Some i -> decodes i.

Record tableOk (t : Table) : Prop :=
  { ok_names : NoDup (Assoc.keys (indexes t));
    ok_decode : bucketsDecode t;
    ok_exact : indexExact t }.

(** ** Vocabulary of the statements *)

(** How many entries of a diff list name the pair ([name], [v]). *)
Definition occurrences (name : Name) (v : bytes) (l : list diffEntry)
  : nat :=
  List.length (filter (fun e => String.eqb (indexName e) name
                           && String.eqb (indexKey e) v) l).

(** The row a range hands out for a stored entry. *)
Definition rowOf (e : bytes * (bytes * Z)) : row :=
  {| rowKey := fst e; rowValue := Some (fst (snd e));
     rowCounter := snd (snd e); rowErr := None |}.

(** A function of one argument returning two values, the second an
    error. *)
Definition acceptable (ht : HandlerType) : bool :=
  match kind ht with
  | Func =>
      (NumIn ht =? 1)%nat && (NumOut ht =? 2)%nat && Out1ImplementsError ht
  | OtherKind => false
  end.

End TableEngine.

(** ** A small codec to run the engine on *)

(** An instance of the codec interface for concrete runs: values are
    strings, the two sentinels, or a channel (a value the encoder refuses).
    A string encodes as itself; the path [chars] yields each byte of the
    payload as a one-byte string, the path [whole] the payload itself, any
    other path nothing. *)
Module Sample.

Inductive value : Type :=
| VMin
| VMax
| VString (s : string)
| VChan.

Definition eqb (x y : value) : bool :=
  match x, y with
  | VMin, VMin => true
  | VMax, VMax => true
  | VString a, VString b => String.eqb a b
  | VChan, VChan => true
  | _, _ => false
  end.

Definition marshal (v : value) : result bytes :=
  match v with
  | VString s => Ok s
  | _ => Err (ErrForeign "msgpack: unsupported type")
  end.

Fixpoint chars (s : string) : list value :=
  match s with
  | EmptyString => []
  | String c r => VString (String c EmptyString) :: chars r
  end.

Definition query (raw : bytes) (path : Name) : option (list value) :=
  if String.eqb path "chars" then Some (chars raw)
  else if String.eqb path "whole" then Some [VString raw]
  else None.

Definition toBytes (v : value) : bytes :=
  match v with
  | VString s => s
  | _ => EmptyString
  end.

(** A key list is stored byte by byte: [1] before each byte of a key,
    [0] after each key. *)
Fixpoint encodeKey (s : string) : bytes :=
  match s with
  | EmptyString => "0"
  | String c r => String "1" (String c (encodeKey r))
  end.

Fixpoint encodeKeys (l : list string) : bytes :=
  match l with
  | [] => EmptyString
  | s :: r => encodeKey s ++ encodeKeys r
  end%string.

Fixpoint decodeKeys (raw : bytes) : result (list string) :=
  match raw with
  | EmptyString => Ok []
  | String tag r =>
      if Ascii.eqb tag "0" then
        match decodeKeys r with
        | Ok l => Ok (EmptyString :: l)
        | Err e => Err e
        end
      else if Ascii.eqb tag "1" then
        match r with
        | String c r' =>
            match decodeKeys r' with
            | Ok (s :: l) => Ok (String c s :: l)
            | Ok [] => Err (ErrForeign "msgpack: unexpected end")
            | Err e => Err e
            end
        | EmptyString => Err (ErrForeign "msgpack: unexpected end")
        end
      else Err (ErrForeign "msgpack: invalid code")
  end.

Definition codec : Codec :=
  {| Any := value;
     MinBounds := VMin;
     MaxBounds := VMax;
     Any_eqb := eqb;
     Marshal := marshal;
     Query := query;
     valueToBytes := toBytes;
     marshalKeys := encodeKeys;
     unmarshalKeys := decodeKeys |}.

(** Five documents under the keys a to e, no index. *)
Definition letters : Table :=
  {| indexes := [];
     data := [("a", ("A", 1%Z)); ("b", ("B", 1%Z)); ("c", ("C", 2%Z));
              ("d", ("D", 1%Z)); ("e", ("E", 3%Z))] |}.

(** One document, written once, under the key k; one index on its
    bytes. *)
Definition held : Table :=
  {| indexes := [("chars", [("l", (encodeKeys ["k"], 1%Z));
                            ("o", (encodeKeys ["k"], 1%Z))])];
     data := [("k", ("lo", 1%Z))] |}.

(** A modifier of the right type that refuses every document. *)
Definition refusing : @Handler codec :=
  {| handlerType := {| kind := Func; NumIn := 1; NumOut := 2;
                       Out1ImplementsError := true |};
     decodeIn0 := fun raw => @Ok (@Any codec) (VString raw);
     Call := fun doc : @Any codec => (doc, Some (ErrForeign "refused")) |}.

(** A value that is not a function, handed in as the modifier. *)
Definition notAFunction : @Handler codec :=
  {| handlerType := {| kind := OtherKind; NumIn := 0; NumOut := 0;
                       Out1ImplementsError := false |};
     decodeIn0 := fun raw => @Ok (@Any codec) (VString raw);
     Call := fun doc : @Any codec => (doc, None) |}.

(** One document, written once, under the key k; no index. *)
Definition plain : Table :=
  {| indexes := []; data := [("k", ("old", 1%Z))] |}.

(** Write a document with the bytes a and b under x, replace it by one
    with the bytes b and c, and delete a key that was never written. *)
Definition scenario : list (@op codec) :=
  [@OpSet codec "x" (VString "ab") [] ["chars"];
   @OpSet codec "x" (VString "bc") [] ["chars"];
   @OpDelete codec "y" [] ["chars"]].

End Sample.

(** ** The tables of a database *)

(** [NewTable] works on the database that owns the table.  Of the [DB]
    it uses the configured table names and the map from name to table;
    [d.newKV] and [d.writeConfig] are defined elsewhere and touch the disk,
    so what they answer is handed in.  [Name(name)] is a conversion between
    string types. *)
Record tableConfig : Type := { TableName : string }.

Record Config : Type := { Tables : list tableConfig }.

Record DB : Type :=
  { config : Config;
    tables : list (Name * Table) }.

(** The errors of [NewTable]: its own two, or one passed up from [newKV]
    or [writeConfig]. *)
Inductive dbError : Type :=
| ErrBadIdentifier
| ErrAlreadyExists
| ErrPassed (err : error).

Definition NewTable (newKV : Name -> result KV.store)
    (writeConfig : Config -> option error) (d : DB) (name : string)
  : DB * option dbError :=
  if String.eqb name EmptyString || (125 <? String.length name)%nat
  then (d, Some ErrBadIdentifier)
  else if existsb (fun table => String.eqb (TableName table) name)
            (Tables (config d))
  then (d, Some ErrAlreadyExists)
  else
    match newKV name with
    | Err err => (d, Some (ErrPassed err))
    | Ok kv =>
        let d1 :=
          {| config := {| Tables := Tables (config d)
                                      ++ [{| TableName := name |}] |};
             tables := tables d |} in
        match writeConfig (config d1) with
        | Some err => (d1, Some (ErrPassed err))
        | None =>
            ({| config := config d1;
                tables := Assoc.put name {| indexes := []; data := kv |}
                            (tables d1) |},
             None)
        end
    end.

(** The names the configuration lists. *)
Definition configured (d : DB) : list string :=
  map TableName (Tables (config d)).

(** A registry in good order: no name is configured twice, every
    registered table is configured, and every configured name is a good
    identifier. *)
Definition registryOk (d : DB) : Prop :=
  NoDup (configured d)
  /\ (forall n t, Assoc.find n (tables d) = Some t -> In n (configured d))
  /\ (forall n, In n (configured d) ->
                n <> EmptyString /\ (String.length n <= 125)%nat).

(** ** More vocabulary *)

(** The keys of a keyspace in strictly ascending byte order. *)
Definition ascending (s : KV.store) : Prop :=
  StronglySorted (fun a b : bytes => String.compare a b = Lt) (Assoc.keys s).

(** Along the list, once [f] is false it stays false. *)
Fixpoint staysFalse {A : Type} (f : A -> bool) (l : list A) : Prop :=
  match l with
  | [] => True
  | x :: l' =>
      (f x = false -> Forall (fun y => f y = false) l') /\ staysFalse f l'
  end.

Section MoreVocabulary.
Context {C : Codec}.

(** No stored bucket of an index keyspace decodes to the empty list. *)
Definition noEmptyBucket (i : KV.store) : Prop :=
  forall (v raw : bytes) (c : Z),
    Assoc.find v i = Some (raw, c) -> unmarshalKeys raw <> Ok [].

Definition noEmptyBuckets (t : Table) : Prop :=
  forall (name : Name) (i : KV.store),
    Index t name = Some i -> noEmptyBucket i.

(** The two bound checks of a range, as [Between] and its closure make
    them: a sentinel bound lets every key through. *)
Definition aboveLower (lower : Any) (k : bytes) : bool :=
  Any_eqb lower MinBounds
  || negb (isLt (String.compare k (valueToBytes lower))).

Definition belowUpper (upper : Any) (k : bytes) : bool :=
  Any_eqb upper MaxBounds
  || negb (isGt (String.compare k (valueToBytes upper))).

(** The stored entries whose key lies within both bounds, in store
    order. *)
Definition selected (t : Table) (lower upper : Any)
  : list (bytes * (bytes * Z)) :=
  filter (fun e => aboveLower lower (fst e) && belowUpper upper (fst e))
    (data t).

(** Does the closure of a range end the range at key [k]?  The two
    tests of its loop body, taken together. *)
Definition stops (r : Range) (k : bytes) : bool :=
  (negb (shouldReverse r) && negb (Any_eqb (upper r) MaxBounds)
   && isGt (String.compare k (upperBytes r)))
  || (shouldReverse r && negb (Any_eqb (lower r) MinBounds)
      && isLt (String.compare k (lowerBytes r))).

End MoreVocabulary.

(** ** More sample data *)

Module Fixtures.

(** A disk that never fails: every new keyspace is empty. *)
Definition newKV (name : Name) : result KV.store := Ok KV.empty.

Definition writeConfig (c : Config) : option error := None.

(** A disk on which the configuration cannot be written. *)
Definition readOnlyConfig (c : Config) : option error :=
  Some (ErrForeign "read-only file system").

Definition emptyDB : DB := {| config := {| Tables := [] |}; tables := [] |}.

(** A modifier of the right type that reverses a two-byte document. *)
Definition swapping : @Handler Sample.codec :=
  {| handlerType := {| kind := Func; NumIn := 1; NumOut := 2;
                       Out1ImplementsError := true |};
     decodeIn0 := fun raw => @Ok (@Any Sample.codec) (Sample.VString raw);
     Call := fun doc : @Any Sample.codec =>
               (match doc with
                | Sample.VString (String a (String b EmptyString)) =>
                    Sample.VString (String b (String a EmptyString))
                | other => other
                end, None) |}.

(** An index keyspace with one bucket that does not decode. *)
Definition corrupt : KV.store := [("a", ("2", 1%Z))].

(** A table whose only index holds that bucket. *)
Definition damaged : Table :=
  {| indexes := [("chars", corrupt)]; data := [] |}.

(** The decoder of a caller who reads documents as strings. *)
Definition asString (raw : bytes) : result string := Ok raw.

End Fixtures.

(** * Properties *)

(** ** Association lists *)

Module AssocFacts.
Section AssocFacts.
Context {A : Type}.
Implicit Types (k : bytes) (a : A) (l : list (bytes * A)).

Lemma compare_refl k : String.compare k k = Eq.
Proof.
  pose proof (String.compare_antisym k k) as H.
  destruct (String.compare k k); simpl in H; congruence.
Qed.

Lemma compare_Eq_eqb k k' : String.compare k k' = Eq -> String.eqb k k' = true.
Proof. intros H. apply String.compare_eq_iff in H. subst. apply String.eqb_refl. Qed.

Lemma compare_ne_eqb k k' : String.compare k k' <> Eq -> String.eqb k k' = false.
Proof.
  intros H. apply String.eqb_neq. intros ->. apply H, compare_refl.
Qed.

Lemma find_put_eq k a l : Assoc.find k (Assoc.put k a l) = Some a.
Proof.
  induction l as [|[k' a'] r IH]; simpl.
  - now rewrite String.eqb_refl.
  - destruct (String.compare k k') eqn:E; simpl.
    + now rewrite String.eqb_refl.
    + now rewrite String.eqb_refl.
    + rewrite compare_ne_eqb by congruence. exact IH.
Qed.

Lemma find_put_ne k k0 a l :
  k0 <> k -> Assoc.find k0 (Assoc.put k a l) = Assoc.find k0 l.
Proof.
  intros Hne. apply String.eqb_neq in Hne.
  induction l as [|[k' a'] r IH]; simpl.
  - now rewrite Hne.
  - destruct (String.compare k k') eqn:E; simpl.
    + apply String.compare_eq_iff in E. subst k'. now rewrite Hne.
    + now rewrite Hne.
    + now rewrite IH.
Qed.

Lemma find_del_eq k l : Assoc.find k (Assoc.del k l) = None.
Proof.
  induction l as [|[k' a'] r IH]; simpl; [reflexivity|].
  destruct (String.eqb k k') eqn:E; simpl; [exact IH|].
  now rewrite E.
Qed.

Lemma find_del_ne k k0 l :
  k0 <> k -> Assoc.find k0 (Assoc.del k l) = Assoc.find k0 l.
Proof.
  intros Hne.
  induction l as [|[k' a'] r IH]; simpl; [reflexivity|].
  destruct (String.eqb k k') eqn:E; simpl.
  - apply String.eqb_eq in E. subst k'.
    apply String.eqb_neq in Hne. now rewrite Hne.
  - now rewrite IH.
Qed.

Lemma find_some_in_keys k a l :
  Assoc.find k l = Some a -> In k (Assoc.keys l).
Proof.
  induction l as [|[k' a'] r IH]; simpl; [discriminate|].
  destruct (String.eqb k k') eqn:E.
  - apply String.eqb_eq in E. now left.
  - intros H. right. now apply IH.
Qed.

Lemma in_keys_find k l :
  In k (Assoc.keys l) -> exists a, Assoc.find k l = Some a.
Proof.
  induction l as [|[k' a'] r IH]; simpl; [tauto|].
  intros [->|H].
  - rewrite String.eqb_refl. now eexists.
  - destruct (String.eqb k k'); [now eexists | now apply IH].
Qed.
End AssocFacts.
End AssocFacts.

(** ** The diff engine *)

Section DiffFacts.
Context {C : Codec}.

Lemma diffIndexes_acc (order : list Name) (old new : bytes)
    (adds rems : list diffEntry) :
  fold_left
    (fun (acc : list diffEntry * list diffEntry) (indexName : Name) =>
       let (additions, removals) := acc in
       let oldValues := indexValues indexName old in
       let newValues := indexValues indexName new in
       (additions ++ getOneWayDiffs indexName newValues oldValues,
        removals ++ getOneWayDiffs indexName oldValues newValues))
    order (adds, rems)
  = (adds ++ flat_map (fun n => getOneWayDiffs n (indexValues n new)
                                  (indexValues n old)) order,
     rems ++ flat_map (fun n => getOneWayDiffs n (indexValues n old)
                                  (indexValues n new)) order).
Proof.
  revert adds rems.
  induction order as [|n order IH]; intros adds rems; simpl.
  - now rewrite !app_nil_r.
  - rewrite IH, <- !app_assoc. reflexivity.
Qed.

(** Index by index, the additions are the new values missing from the
    old ones and the removals the old values missing from the new ones. *)
Lemma diffIndexes_flat_map (order : list Name) (old new : bytes) :
  diffIndexes order old new
  = (flat_map (fun n => getOneWayDiffs n (indexValues n new)
                          (indexValues n old)) order,
     flat_map (fun n => getOneWayDiffs n (indexValues n old)
                          (indexValues n new)) order).
Proof. unfold diffIndexes. now rewrite diffIndexes_acc. Qed.

Lemma found_In (aa : bytes) (b : list bytes) :
  found aa b = true <-> In aa b.
Proof.
  unfold found. rewrite existsb_exists. split.
  - intros (x & Hin & E). apply String.eqb_eq in E. now subst.
  - intros Hin. exists aa. split; [exact Hin | apply String.eqb_refl].
Qed.

Lemma in_getOneWayDiffs (name : string) (a b : list bytes) (e : diffEntry) :
  In e (getOneWayDiffs name a b)
  <-> indexName e = name /\ In (indexKey e) a /\ ~ In (indexKey e) b.
Proof.
  induction a as [|aa a IH]; simpl.
  - tauto.
  - destruct (found aa b) eqn:F.
    + apply found_In in F. rewrite IH. split.
      * tauto.
      * intros (Hn & [Ha|Ha] & Hb); [subst aa|]; tauto.
    + assert (~ In aa b) as Hnb
        by (intros Hin; apply found_In in Hin; congruence).
      simpl. rewrite IH. split.
      * intros [<-|H]; simpl; tauto.
      * intros (Hn & [Ha|Ha] & Hb); [left|right; tauto].
        destruct e; simpl in *; now subst.
Qed.

Lemma occurrences_app (name : Name) (v : bytes) (l1 l2 : list diffEntry) :
  occurrences name v (l1 ++ l2)
  = occurrences name v l1 + occurrences name v l2.
Proof. unfold occurrences. now rewrite filter_app, length_app. Qed.

Lemma occurrences_getOneWayDiffs (name n : Name) (v : bytes)
    (a b : list bytes) :
  occurrences name v (getOneWayDiffs n a b)
  = if String.eqb n name
    then if found v b then 0 else count_occ string_dec a v
    else 0.
Proof.
  induction a as [|aa a IH]; simpl.
  - unfold occurrences. simpl. now destruct (String.eqb n name), (found v b).
  - destruct (found aa b) eqn:F.
    + rewrite IH. destruct (String.eqb n name); [|reflexivity].
      destruct (found v b) eqn:Fv; [reflexivity|].
      destruct (string_dec aa v) as [->|Hne]; [congruence | reflexivity].
    + unfold occurrences in *. simpl.
      destruct (String.eqb n name) eqn:En; simpl.
      * destruct (string_dec aa v) as [->|Hne].
        -- rewrite String.eqb_refl, F. simpl. rewrite IH, F. reflexivity.
        -- apply String.eqb_neq in Hne. rewrite Hne. exact IH.
      * exact IH.
Qed.

Lemma occurrences_flat_map (name : Name) (v : bytes)
    (f : Name -> list bytes * list bytes) (order : list Name) :
  NoDup order ->
  occurrences name v
    (flat_map (fun n => getOneWayDiffs n (fst (f n)) (snd (f n))) order)
  = if in_dec string_dec name order
    then if found v (snd (f name)) then 0
         else count_occ string_dec (fst (f name)) v
    else 0.
Proof.
  induction order as [|n order IH]; intros Hnd; simpl.
  - reflexivity.
  - inversion Hnd as [|? ? Hnotin Hnd']; subst.
    rewrite occurrences_app, occurrences_getOneWayDiffs, (IH Hnd').
    destruct (string_dec n name) as [->|Hne].
    + rewrite String.eqb_refl.
      destruct (in_dec string_dec name order); [contradiction | lia].
    + rewrite (proj2 (String.eqb_neq n name) Hne). simpl.
      destruct (in_dec string_dec name order) as [Hin|Hin];
        destruct (in_dec string_dec name order); tauto || reflexivity.
Qed.
End DiffFacts.

Section DiffClaims.
Context {C : Codec}.

(** C3, as amended.  [diffIndexes] does not collapse repeated values: for
    a declared index, the pair (index, value) has as many addition entries
    as the value has occurrences in the new sequence when the old sequence
    lacks it, and none when the old sequence holds it at least once;
    removals likewise with old and new exchanged.  Only the multiplicity
    in the other sequence goes untracked. *)
Theorem diffIndexes_counts_every_occurrence
    (order : list Name) (old new : bytes) (name : Name) (v : bytes) :
  NoDup order -> In name order ->
  occurrences name v (fst (diffIndexes order old new))
  = (if found v (indexValues name old) then 0
     else count_occ string_dec (indexValues name new) v)
  /\ occurrences name v (snd (diffIndexes order old new))
     = (if found v (indexValues name new) then 0
        else count_occ string_dec (indexValues name old) v).
Proof.
  intros Hnd Hin. rewrite diffIndexes_flat_map. simpl.
  pose proof (occurrences_flat_map name v
    (fun n => (indexValues n new, indexValues n old)) order Hnd) as Ha.
  pose proof (occurrences_flat_map name v
    (fun n => (indexValues n old, indexValues n new)) order Hnd) as Hr.
  simpl in Ha, Hr. rewrite Ha, Hr.
  destruct (in_dec string_dec name order); [split; reflexivity | contradiction].
Qed.

(** C4, as amended.  For two visiting orders of the declared indexes, the
    additions of [diffIndexes(A, B)] and the removals of
    [diffIndexes(B, A)] hold the same entries (they are permutations of
    each other), and so do the removals of the first and the additions of
    the second; when both calls visit the indexes in the same order the
    lists are equal. *)
Theorem diffIndexes_symmetric
    (t : Table) (order1 order2 : list Name) (A B : bytes) :
  rangeOrder t order1 -> rangeOrder t order2 ->
  Permutation (fst (diffIndexes order1 A B)) (snd (diffIndexes order2 B A))
  /\ Permutation (snd (diffIndexes order1 A B))
       (fst (diffIndexes order2 B A))
  /\ (order1 = order2 ->
      fst (diffIndexes order1 A B) = snd (diffIndexes order2 B A)
      /\ snd (diffIndexes order1 A B) = fst (diffIndexes order2 B A)).
Proof.
  unfold rangeOrder. intros H1 H2.
  assert (Permutation order1 order2) as HP
    by (etransitivity; [exact H1 | symmetry; exact H2]).
  rewrite !diffIndexes_flat_map. simpl. repeat split.
  - now apply Permutation_flat_map.
  - now apply Permutation_flat_map.
  - subst order2. reflexivity.
  - subst order2. reflexivity.
Qed.
End DiffClaims.

(** The engine run on the sample codec: a payload whose [chars] repeat a
    byte yields one addition entry for each occurrence. *)
Lemma duplicate_values_counterexample :
  ~ (occurrences "chars" "a"
       (fst (@diffIndexes Sample.codec ["chars"] EmptyString "aa")) <= 1).
Proof. vm_compute. lia. Qed.

Lemma diffIndexes_counts_every_occurrence_witness :
  NoDup ["chars"] /\ In "chars" ["chars"]
  /\ occurrences "chars" "a"
       (fst (@diffIndexes Sample.codec ["chars"] EmptyString "aa")) = 2.
Proof.
  assert (NoDup ["chars"]) as Hnd
    by (constructor; [simpl; tauto | constructor]).
  assert (In "chars" ["chars"]) as Hin by (simpl; tauto).
  split; [exact Hnd | split; [exact Hin |]].
  exact (proj1 (@diffIndexes_counts_every_occurrence Sample.codec
                  ["chars"] EmptyString "aa" "chars" "a" Hnd Hin)).
Defined.

(** Two ranges over the same two indexes, visited in opposite orders: the
    additions of one call and the removals of the mirrored call list the
    same two entries in a different order. *)
Lemma diff_symmetry_counterexample :
  rangeOrder (newTable ["chars"; "whole"]) ["chars"; "whole"]
  /\ rangeOrder (newTable ["chars"; "whole"]) ["whole"; "chars"]
  /\ fst (@diffIndexes Sample.codec ["chars"; "whole"] EmptyString "a")
     <> snd (@diffIndexes Sample.codec ["whole"; "chars"] "a" EmptyString).
Proof.
  split; [apply Permutation_refl |].
  split; [apply perm_swap |].
  vm_compute. intros H. discriminate H.
Qed.

Lemma diffIndexes_symmetric_witness :
  rangeOrder (newTable ["chars"; "whole"]) ["chars"; "whole"]
  /\ rangeOrder (newTable ["chars"; "whole"]) ["whole"; "chars"]
  /\ Permutation
       (fst (@diffIndexes Sample.codec ["chars"; "whole"] EmptyString "a"))
       (snd (@diffIndexes Sample.codec ["whole"; "chars"] "a" EmptyString)).
Proof.
  assert (rangeOrder (newTable ["chars"; "whole"])
            ["chars"; "whole"]) as H1 by apply Permutation_refl.
  assert (rangeOrder (newTable ["chars"; "whole"])
            ["whole"; "chars"]) as H2 by apply perm_swap.
  split; [exact H1 | split; [exact H2 |]].
  exact (proj1 (@diffIndexes_symmetric Sample.codec _ _ _ EmptyString "a" H1 H2)).
Defined.

(** ** The range cursor *)

Section RangeFacts.
Context {C : Codec}.

(** Once a pull ends the range without moving the iterator, every later
    pull ends it again. *)
Lemma pulls_exhausted (r : Range) (n : nat) :
  next r = (endOfRange, r) -> pulls n r = repeat endOfRange n.
Proof.
  intros H. induction n as [|n IH]; simpl; [reflexivity|].
  rewrite H. simpl. now rewrite IH.
Qed.

(** With both bounds the sentinels, the pulls hand out what is left of
    the scan, entry by entry, then end. *)
Lemma pulls_unbounded (r : Range) (n : nat) :
  Any_eqb (lower r) MinBounds = true ->
  Any_eqb (upper r) MaxBounds = true ->
  pulls (List.length (KV.rest (it r)) + n) r
  = map rowOf (KV.rest (it r)) ++ repeat endOfRange n.
Proof.
  destruct r as [[rv sc rs] sr lo up lb ub]. simpl.
  intros Hlo Hup. revert n.
  induction rs as [|[k [v c]] rs IH]; intros n; simpl.
  - apply pulls_exhausted. reflexivity.
  - unfold next at 1 2. simpl. rewrite Hlo, Hup. simpl.
    rewrite !andb_false_r. simpl.
    unfold KV.Next. simpl. f_equal. apply IH.
Qed.

(** [All] hands out every stored entry, in store order or, reversed, in
    the opposite order, and then ends. *)
Lemma All_yields_every_entry `{!CodecLaws C}
    (t : Table) (reverse : list bool) (n : nat) :
  pulls (List.length (data t) + n) (All t reverse)
  = map rowOf (KV.scan (it (All t reverse))) ++ repeat endOfRange n.
Proof.
  assert (Any_eqb MinBounds MinBounds = true) as Hmin
    by (now apply Any_eqb_eq).
  assert (Any_eqb MaxBounds MaxBounds = true) as Hmax
    by (now apply Any_eqb_eq).
  assert (KV.rest (it (All t reverse)) = KV.scan (it (All t reverse))
          /\ List.length (KV.scan (it (All t reverse)))
             = List.length (data t)) as [Hrest Hlen].
  { unfold All, Between. rewrite Hmin, Hmax.
    destruct reverse as [|[|] ?]; simpl; split;
      try reflexivity; apply length_rev. }
  rewrite <- Hlen, <- Hrest at 1. rewrite <- Hrest.
  apply pulls_unbounded; unfold All, Between; simpl; assumption.
Qed.

(** C7.  On a table holding exactly the keys a, b, c, d, e, a range from
    a bound with canonical bytes [b] to one with canonical bytes [d]
    hands out b, c, d in ascending order, and d, c, b when reversed; both
    bounds are included, and every pull after the third returns
    [ErrEndOfRange]. *)
Theorem Between_b_d_inclusive
    (t : Table) (lo hi : Any) (ea eb ec ed ee : bytes * Z) (n : nat) :
  data t = [("a", ea); ("b", eb); ("c", ec); ("d", ed); ("e", ee)] ->
  Any_eqb lo MinBounds = false ->
  Any_eqb hi MaxBounds = false ->
  valueToBytes lo = "b" ->
  valueToBytes hi = "d" ->
  pulls (3 + n) (Between t lo hi [])
  = [rowOf ("b", eb); rowOf ("c", ec); rowOf ("d", ed)]
      ++ repeat endOfRange n
  /\ pulls (3 + n) (Between t lo hi [true])
     = [rowOf ("d", ed); rowOf ("c", ec); rowOf ("b", eb)]
         ++ repeat endOfRange n.
Proof.
  intros Hdata Hlo Hhi Hlb Hub.
  destruct ea as [va ca], eb as [vb cb], ec as [vc cc],
           ed as [vd cd], ee as [ve ce].
  unfold Between. rewrite Hdata, Hlb, Hub, Hlo, Hhi.
  change (3 + n) with (S (S (S n))). split.
  - cbn [pulls]. unfold next.
    cbn. rewrite Hhi. cbn. rewrite Hhi. cbn. rewrite Hhi. cbn.
    unfold rowOf. cbn. do 3 f_equal.
    apply pulls_exhausted. unfold next. cbn. rewrite Hhi. reflexivity.
  - cbn [pulls]. unfold next.
    cbn. rewrite Hlo. cbn. rewrite Hlo. cbn. rewrite Hlo. cbn.
    unfold rowOf. cbn. do 3 f_equal.
    apply pulls_exhausted. unfold next. cbn. rewrite Hlo. reflexivity.
Qed.

(** C8.  Whatever the table and the reverse flag, [All] hands out, pull
    for pull, what [Between] hands out from [MinBounds] to [MaxBounds]:
    the same keys, values and counters in the same order. *)
Theorem All_is_Between_unbounded
    (t : Table) (reverse : list bool) (n : nat) :
  pulls n (All t reverse) = pulls n (Between t MinBounds MaxBounds reverse).
Proof. unfold All. reflexivity. Qed.
End RangeFacts.

Lemma Between_b_d_inclusive_witness :
  @Any_eqb Sample.codec (Sample.VString "b") (@MinBounds Sample.codec) = false
  /\ @Any_eqb Sample.codec (Sample.VString "d") (@MaxBounds Sample.codec)
     = false
  /\ @valueToBytes Sample.codec (Sample.VString "b") = "b"
  /\ @valueToBytes Sample.codec (Sample.VString "d") = "d"
  /\ map rowKey (@pulls Sample.codec 4
       (@Between Sample.codec Sample.letters
          (Sample.VString "b") (Sample.VString "d") []))
     = ["b"; "c"; "d"; EmptyString].
Proof.
  repeat (split; [reflexivity |]).
  exact (f_equal (map rowKey)
           (proj1 (@Between_b_d_inclusive Sample.codec Sample.letters
                     (Sample.VString "b") (Sample.VString "d")
                     _ _ _ _ _ 1 eq_refl eq_refl eq_refl eq_refl eq_refl))).
Defined.

(** ** Versioned writes *)

Section WriteFacts.
Context {C : Codec}.

(** C9.  [Delete] of a key that holds no document, with or without an
    expected counter, returns nil and hands back the table as it was:
    neither the documents nor any index bucket is touched. *)
Theorem Delete_absent_is_noop
    (fuel : nat) (order : list Name) (t : Table) (key : string)
    (counter : list Z) :
  Assoc.find key (data t) = None ->
  Delete fuel order t key counter = Done (t, None).
Proof.
  intros H. unfold Delete, KV.Get. rewrite H. reflexivity.
Qed.

(** [Delete] compares the expected counter with the live one as
    integers: any other counter is refused and nothing is written. *)
Lemma Delete_stale_counter
    (fuel : nat) (order : list Name) (t : Table) (key : string)
    (v : bytes) (live c : Z) (more : list Z) :
  Assoc.find key (data t) = Some (v, live) ->
  c <> live ->
  Delete fuel order t key (c :: more) = Done (t, Some ErrCounterChanged).
Proof.
  intros H Hne. unfold Delete, KV.Get. rewrite H. simpl.
  destruct (Z.eqb_spec live c); [congruence | reflexivity].
Qed.

(** [Set] compares the live counter with the expected one cut down to 16
    bits: it refuses the write, and writes nothing, when those differ. *)
Lemma Set_stale_counter
    (fuel : nat) (order : list Name) (t : Table) (key : string)
    (value : Any) (v : bytes) (live c : Z) (more : list Z) :
  Assoc.find key (data t) = Some (v, live) ->
  uint16 c <> live ->
  Set_ fuel order t key value (c :: more) = Done (t, Some ErrCounterChanged).
Proof.
  intros H Hne. unfold Set_, KV.Get. rewrite H. simpl.
  destruct (Z.eqb_spec live (uint16 c)); [congruence | reflexivity].
Qed.

(** Every outcome of [Set] with an expected counter on a key that holds
    no document: nothing is written, and the error is [ErrCounterChanged]
    unless the counter's low 16 bits are zero (the counter an absent key
    reads as, so the first check passes) and the value does not encode,
    in which case it is the encoder's error. *)
Lemma Set_absent_with_counter
    (fuel : nat) (order : list Name) (t : Table) (key : string)
    (value : Any) (c : Z) (more : list Z) :
  Assoc.find key (data t) = None ->
  Set_ fuel order t key value (c :: more)
  = Done (t, Some (match Marshal value with
                   | Err e => if (uint16 c =? 0)%Z then e
                              else ErrCounterChanged
                   | Ok _ => ErrCounterChanged
                   end)).
Proof.
  intros H. unfold Set_, KV.Get, KV.CompareAndSet. rewrite H. simpl.
  destruct (uint16 c); simpl; destruct (Marshal value); reflexivity.
Qed.

(** C6.  When the document at [key] decodes and the modifier answers it
    with an error, [Update] returns that very error and the table is
    handed back as it was: nothing is written. *)
Theorem Update_abort_returned_verbatim
    (fuel : nat) (order : list Name) (t : Table) (key : string)
    (h : Handler) (counter : Z) (doc : Any) (abort : error) :
  acceptable (handlerType h) = true ->
  Get t key (decodeIn0 h) = (counter, Ok doc) ->
  snd (Call h doc) = Some abort ->
  Update (S fuel) order t key (Some h) = Done (t, Some abort).
Proof.
  intros Hacc Hget Hcall. unfold Update, acceptable in *.
  destruct (kind (handlerType h)); [|discriminate].
  apply andb_prop in Hacc as [Hacc Herr].
  apply andb_prop in Hacc as [Hin Hout].
  rewrite Hin, Hout, Herr. simpl.
  rewrite Hget, Hcall. reflexivity.
Qed.

(** A non-nil handler of the wrong shape is turned away with an error
    made by [errors.New]; the error depends on the handler's type alone
    and the table is handed back as it was. *)
Lemma Update_rejects_wrong_shape (h : Handler) :
  acceptable (handlerType h) = false ->
  exists msg : string,
    forall (fuel : nat) (order : list Name) (t : Table) (key : string),
      Update fuel order t key (Some h) = Done (t, Some (ErrNew msg)).
Proof.
  unfold acceptable, Update. intros H.
  destruct (kind (handlerType h)); [|eexists; reflexivity].
  destruct (NumIn (handlerType h) =? 1)%nat; simpl in *;
    [|eexists; reflexivity].
  destruct (NumOut (handlerType h) =? 2)%nat; simpl in *;
    [|eexists; reflexivity].
  rewrite H. simpl. eexists; reflexivity.
Qed.

(** C10, at the handler the validation misses.  [Update] with a nil
    handler panics on [handlerType.Kind()] instead of returning an
    error. *)
Theorem Update_nil_handler_panics
    (fuel : nat) (order : list Name) (t : Table) (key : string) :
  Update fuel order t key None = Panic.
Proof. reflexivity. Qed.
End WriteFacts.

Lemma Delete_absent_is_noop_witness :
  Assoc.find "z" (data Sample.letters) = None
  /\ @Delete Sample.codec 0 [] Sample.letters "z" [7%Z]
     = Done (Sample.letters, None).
Proof.
  split; [reflexivity |].
  exact (@Delete_absent_is_noop Sample.codec 0 [] Sample.letters "z" [7%Z]
           eq_refl).
Defined.

(** C2, on the input where [Set] departs from it.  The document under k was
    written once and its live counter is 1; [Set] with the expected counter
    65537 compares 1 with [uint16(65537)], which is 1, goes on to the
    compare-and-set with that same truncated counter, and replaces the
    stored value: it returns nil and the counter moves to 2. *)
Theorem Set_accepts_counter_equal_modulo_65536 :
  @run Sample.codec 1 [@OpSet Sample.codec "k" (Sample.VString "old") [] []]
    (newTable [])
  = Done (Sample.plain, [None])
  /\ @Set_ Sample.codec 1 [] Sample.plain "k" (Sample.VString "new")
       [65537%Z]
     = Done ({| indexes := []; data := [("k", ("new", 2%Z))] |}, None).
Proof. split; reflexivity. Qed.

Lemma Set_absent_with_counter_witness :
  Assoc.find "k" (data (newTable [])) = None
  /\ @Set_ Sample.codec 1 [] (newTable []) "k" (Sample.VString "v") [5%Z]
     = Done (newTable [], Some ErrCounterChanged).
Proof.
  split; [reflexivity |].
  exact (@Set_absent_with_counter Sample.codec 1 [] (newTable []) "k"
           (Sample.VString "v") 5%Z [] eq_refl).
Defined.

Lemma Update_abort_returned_verbatim_witness :
  acceptable (handlerType Sample.refusing) = true
  /\ Get Sample.held "k" (decodeIn0 Sample.refusing)
     = (1%Z, Ok (Sample.VString "lo" : @Any Sample.codec))
  /\ snd (Call Sample.refusing (Sample.VString "lo"))
     = Some (ErrForeign "refused")
  /\ @Update Sample.codec 1 ["chars"] Sample.held "k" (Some Sample.refusing)
     = Done (Sample.held, Some (ErrForeign "refused")).
Proof.
  repeat (split; [reflexivity |]).
  exact (@Update_abort_returned_verbatim Sample.codec 0 ["chars"] Sample.held
           "k" Sample.refusing 1%Z (Sample.VString "lo")
           (ErrForeign "refused") eq_refl eq_refl eq_refl).
Defined.

(** ** The index engine *)

Section BucketFacts.
Context {C : Codec} {L : CodecLaws C}.

Lemma removeFirst_None (key : string) (l : list string) :
  removeFirst key l = None -> ~ In key l.
Proof.
  induction l as [|v r IH]; simpl; [tauto|].
  destruct (String.eqb v key) eqn:E; [discriminate|].
  apply String.eqb_neq in E.
  destruct (removeFirst key r); [discriminate|].
  intros _ [H|H]; [congruence | now apply IH].
Qed.

Lemma removeFirst_Some (key : string) (l l' : list string) :
  removeFirst key l = Some l' -> NoDup l ->
  NoDup l' /\ forall k, In k l' <-> In k l /\ k <> key.
Proof.
  revert l'. induction l as [|v r IH]; simpl; intros l' H Hnd;
    [discriminate|].
  inversion Hnd as [|? ? Hnotin Hnd']; subst.
  destruct (String.eqb v key) eqn:E.
  - apply String.eqb_eq in E. subst v. inversion H; subst l'.
    split; [exact Hnd'|]. intros k. split.
    + intros Hk. split; [now right | congruence].
    + intros [[Hk|Hk] Hne]; [congruence | exact Hk].
  - apply String.eqb_neq in E.
    destruct (removeFirst key r) as [r'|] eqn:R; [|discriminate].
    inversion H; subst l'.
    destruct (IH r' eq_refl Hnd') as [Hnd'' Hin]. split.
    + constructor; [|exact Hnd'']. rewrite Hin. tauto.
    + intros k. simpl. rewrite Hin. split.
      * intros [Hk|[Hk Hne]]; [subst k|]; tauto.
      * tauto.
Qed.

Lemma bucket_absent (i : KV.store) (v : bytes) :
  Assoc.find v i = None -> bucket i v = [].
Proof. intros H. unfold bucket, KV.Get. now rewrite H. Qed.

Lemma bucket_stored (i : KV.store) (v raw : bytes) (c : Z)
    (l : list string) :
  Assoc.find v i = Some (raw, c) -> unmarshalKeys raw = Ok l ->
  bucket i v = l.
Proof. intros H D. unfold bucket, KV.Get. rewrite H. simpl. now rewrite D. Qed.

Lemma bucket_put_eq (i : KV.store) (v : bytes) (l : list string) (c : Z) :
  bucket (Assoc.put v (marshalKeys l, c) i) v = l.
Proof.
  apply bucket_stored with (raw := marshalKeys l) (c := c).
  - apply AssocFacts.find_put_eq.
  - apply unmarshal_marshalKeys.
Qed.

Lemma bucket_put_ne (i : KV.store) (v v' raw : bytes) (c : Z) :
  v' <> v -> bucket (Assoc.put v (raw, c) i) v' = bucket i v'.
Proof.
  intros Hne. unfold bucket, KV.Get.
  now rewrite AssocFacts.find_put_ne.
Qed.

Lemma bucket_del_eq (i : KV.store) (v : bytes) :
  bucket (Assoc.del v i) v = [].
Proof. apply bucket_absent, AssocFacts.find_del_eq. Qed.

Lemma bucket_del_ne (i : KV.store) (v v' : bytes) :
  v' <> v -> bucket (Assoc.del v i) v' = bucket i v'.
Proof.
  intros Hne. unfold bucket, KV.Get.
  now rewrite AssocFacts.find_del_ne.
Qed.

Lemma decodes_put (i : KV.store) (v : bytes) (l : list string) (c : Z) :
  decodes i -> NoDup l -> decodes (Assoc.put v (marshalKeys l, c) i).
Proof.
  intros Hd Hnd v' raw' c' Hf.
  destruct (string_dec v' v) as [->|Hne].
  - rewrite AssocFacts.find_put_eq in Hf. inversion Hf; subst.
    exists l. split; [apply unmarshal_marshalKeys | exact Hnd].
  - rewrite AssocFacts.find_put_ne in Hf by exact Hne. eapply Hd; eauto.
Qed.

Lemma decodes_del (i : KV.store) (v : bytes) :
  decodes i -> decodes (Assoc.del v i).
Proof.
  intros Hd v' raw' c' Hf.
  destruct (string_dec v' v) as [->|Hne].
  - rewrite AssocFacts.find_del_eq in Hf. discriminate.
  - rewrite AssocFacts.find_del_ne in Hf by exact Hne. eapply Hd; eauto.
Qed.

(** In a keyspace whose buckets decode, [deleteFromIndex] returns nil on
    its first pass and takes [key] out of the bucket at [indexKey],
    leaving every other membership as it was. *)
Lemma deleteFromIndex_spec (fuel : nat) (i : KV.store) (indexKey : bytes)
    (key : string) :
  decodes i ->
  exists i',
    deleteFromIndex (S fuel) i indexKey key = Done (i', None)
    /\ decodes i'
    /\ forall v k, In k (bucket i' v)
                   <-> In k (bucket i v) /\ ~ (k = key /\ v = indexKey).
Proof.
  intros Hd. simpl. unfold KV.Get.
  destruct (Assoc.find indexKey i) as [[raw c]|] eqn:F; simpl.
  - destruct (Hd _ _ _ F) as (l & Hl & Hnd). rewrite Hl.
    pose proof (bucket_stored _ _ _ _ _ F Hl) as Hb.
    destruct (removeFirst key l) as [l'|] eqn:R.
    + destruct (removeFirst_Some _ _ _ R Hnd) as [Hnd' Hin].
      destruct l' as [|x l'].
      * unfold KV.CompareAndDelete. rewrite F, Z.eqb_refl.
        eexists. split; [reflexivity|]. split; [now apply decodes_del|].
        intros v k. destruct (string_dec v indexKey) as [->|Hne].
        -- rewrite bucket_del_eq, Hb. specialize (Hin k). simpl in Hin.
           split; [tauto|]. intros [Hk Hn].
           apply Hin. split; [exact Hk|]. intros ->. now apply Hn.
        -- rewrite bucket_del_ne by exact Hne. tauto.
      * unfold KV.CompareAndSet. rewrite F, Z.eqb_refl.
        eexists. split; [reflexivity|].
        split; [now apply decodes_put|].
        intros v k. destruct (string_dec v indexKey) as [->|Hne].
        -- rewrite bucket_put_eq, Hb, Hin. split.
           ++ intros [Hk Hkey]. split; [exact Hk | tauto].
           ++ intros [Hk Hn]. split; [exact Hk|]. intros ->. now apply Hn.
        -- rewrite bucket_put_ne by exact Hne. tauto.
    + apply removeFirst_None in R.
      exists i. split; [reflexivity|]. split; [exact Hd|].
      intros v k. split; [|tauto]. intros Hk. split; [exact Hk|].
      intros [-> ->]. rewrite Hb in Hk. contradiction.
  - exists i. split; [reflexivity|]. split; [exact Hd|].
    intros v k. split; [|tauto]. intros Hk. split; [exact Hk|].
    intros [-> ->]. rewrite (bucket_absent _ _ F) in Hk. contradiction.
Qed.

Lemma existsb_eqb_In (key : string) (l : list string) :
  existsb (fun item => String.eqb item key) l = true <-> In key l.
Proof.
  rewrite existsb_exists. split.
  - intros (x & Hx & E). apply String.eqb_eq in E. now subst.
  - intros H. exists key. split; [exact H | apply String.eqb_refl].
Qed.

(** In a keyspace whose buckets decode, [addToIndex] returns nil on its
    first pass and puts [key] into the bucket at [indexKey], leaving every
    other membership as it was. *)
Lemma addToIndex_spec (fuel : nat) (i : KV.store) (indexKey : bytes)
    (key : string) :
  decodes i ->
  exists i',
    addToIndex (S fuel) i indexKey key = Done (i', None)
    /\ decodes i'
    /\ forall v k, In k (bucket i' v)
                   <-> In k (bucket i v) \/ (k = key /\ v = indexKey).
Proof.
  intros Hd. simpl. unfold KV.Get.
  destruct (Assoc.find indexKey i) as [[raw c]|] eqn:F; simpl.
  - destruct (Hd _ _ _ F) as (l & Hl & Hnd). rewrite Hl.
    pose proof (bucket_stored _ _ _ _ _ F Hl) as Hb.
    destruct (existsb (fun item => String.eqb item key) l) eqn:E.
    + apply existsb_eqb_In in E.
      exists i. split; [reflexivity|]. split; [exact Hd|].
      intros v k. split; [tauto|].
      intros [Hk|[-> ->]]; [exact Hk | now rewrite Hb].
    + assert (~ In key l) as Hnotin
        by (intros Hin; apply existsb_eqb_In in Hin; congruence).
      unfold KV.CompareAndSet. rewrite F, Z.eqb_refl.
      eexists. split; [reflexivity|]. split.
      * apply decodes_put; [exact Hd|].
        apply NoDup_app; repeat split; try assumption.
        -- constructor; [simpl; tauto | constructor].
        -- intros x Hx [<-|[]]. contradiction.
      * intros v k. destruct (string_dec v indexKey) as [->|Hne].
        -- rewrite bucket_put_eq, Hb, in_app_iff. simpl. split.
           ++ intros [Hk|[Hk|[]]]; [now left | right; now split].
           ++ intros [Hk|[Hk _]]; [now left | right; now left].
        -- rewrite bucket_put_ne by exact Hne. split; [tauto|].
           intros [Hk|[_ Hv]]; [exact Hk | contradiction].
  - eexists. split; [reflexivity|]. unfold KV.Set_. split.
    + apply decodes_put; [exact Hd|].
      constructor; [simpl; tauto | constructor].
    + intros v k. destruct (string_dec v indexKey) as [->|Hne].
      * rewrite bucket_put_eq, (bucket_absent _ _ F). simpl. split.
        -- intros [Hk|[]]. right. now split.
        -- intros [[]|[Hk _]]. now left.
      * rewrite bucket_put_ne by exact Hne. split; [tauto|].
        intros [Hk|[_ Hv]]; [exact Hk | contradiction].
Qed.
End BucketFacts.

Section TableFacts.
Context {C : Codec} {L : CodecLaws C}.

Lemma keys_setIndex (n : Name) (ix : KV.store) (l : list (Name * KV.store)) :
  Assoc.keys (setIndex n ix l) = Assoc.keys l.
Proof.
  induction l as [|[n' ix'] r IH]; simpl; [reflexivity|].
  destruct (String.eqb n n'); simpl; [reflexivity | now rewrite IH].
Qed.

Lemma find_setIndex_eq (n : Name) (ix ix0 : KV.store)
    (l : list (Name * KV.store)) :
  Assoc.find n l = Some ix0 -> Assoc.find n (setIndex n ix l) = Some ix.
Proof.
  induction l as [|[n' ix'] r IH]; simpl; [discriminate|].
  destruct (String.eqb n n') eqn:E; simpl; rewrite E; [reflexivity | exact IH].
Qed.

Lemma find_setIndex_ne (n n' : Name) (ix : KV.store)
    (l : list (Name * KV.store)) :
  n' <> n -> Assoc.find n' (setIndex n ix l) = Assoc.find n' l.
Proof.
  intros Hne. induction l as [|[m ix'] r IH]; simpl; [reflexivity|].
  destruct (String.eqb n m) eqn:E; simpl.
  - apply String.eqb_eq in E. subst m.
    now rewrite (proj2 (String.eqb_neq n' n) Hne).
  - now rewrite IH.
Qed.

(** The two loops of [updateIndex] share one shape; [R] says how one call
    of the bucket operation changes a membership: [P /\ ~ Q] for a
    removal, [P \/ Q] for an addition. *)
Section Loop.
Variable R : Prop -> Prop -> Prop.
Hypothesis R_iff :
  forall P P' Q Q', (P <-> P') -> (Q <-> Q') -> (R P Q <-> R P' Q').
Hypothesis R_False : forall P, R P False <-> P.
Hypothesis R_or : forall P Q1 Q2, R (R P Q1) Q2 <-> R P (Q1 \/ Q2).

Variable op : KV.store -> bytes -> string -> res (KV.store * option error).
Hypothesis op_spec :
  forall (i : KV.store) (indexKey : bytes) (key : string),
    decodes i ->
    exists i',
      op i indexKey key = Done (i', None)
      /\ decodes i'
      /\ forall v k, In k (bucket i' v)
                     <-> R (In k (bucket i v)) (k = key /\ v = indexKey).

Lemma forEntries_spec (entries : list diffEntry) (key : string) :
  forall (t : Table) (lastError : option error),
    bucketsDecode t ->
    (forall e, In e entries -> In (indexName e) (Assoc.keys (indexes t))) ->
    exists t',
      forEntries op entries key t lastError = Done (t', lastError)
      /\ data t' = data t
      /\ Assoc.keys (indexes t') = Assoc.keys (indexes t)
      /\ bucketsDecode t'
      /\ forall name i',
           Index t' name = Some i' ->
           exists i,
             Index t name = Some i
             /\ forall v k,
                  In k (bucket i' v)
                  <-> R (In k (bucket i v))
                        (k = key
                         /\ In {| indexName := name; indexKey := v |}
                              entries).
Proof.
  induction entries as [|e es IH]; intros t lastError Hdec Hnames.
  - exists t. simpl. repeat split; try assumption.
    intros name i' Hi. exists i'. split; [exact Hi|].
    intros v k. rewrite <- (R_False (In k (bucket i' v))) at 1.
    apply R_iff; tauto.
  - simpl.
    destruct (AssocFacts.in_keys_find (indexName e) (indexes t))
      as [i0 Hi0]; [apply Hnames; now left|].
    unfold Index at 1. rewrite Hi0.
    destruct (op_spec i0 (indexKey e) key (Hdec _ _ Hi0))
      as (i1 & Hop & Hdec1 & Hmem1).
    rewrite Hop. simpl.
    set (t1 := withIndex t (indexName e) i1).
    assert (bucketsDecode t1) as Hdec_t1.
    { intros name i Hi. unfold t1, Index, withIndex in Hi. simpl in Hi.
      destruct (string_dec name (indexName e)) as [->|Hne].
      - rewrite (find_setIndex_eq _ _ _ _ Hi0) in Hi.
        inversion Hi; subst. exact Hdec1.
      - rewrite find_setIndex_ne in Hi by exact Hne.
        eapply Hdec; exact Hi. }
    assert (Assoc.keys (indexes t1) = Assoc.keys (indexes t)) as Hkeys
      by apply keys_setIndex.
    destruct (IH t1 lastError Hdec_t1) as (t' & Hrun & Hdata & Hk & Hd & Hmem).
    { intros e' He'. rewrite Hkeys. apply Hnames. now right. }
    exists t'. split; [exact Hrun|].
    split; [exact Hdata|]. split; [now rewrite Hk|]. split; [exact Hd|].
    intros name i' Hi'.
    destruct (Hmem name i' Hi') as (i1' & Hi1' & Hiff).
    unfold t1, Index, withIndex in Hi1'. simpl in Hi1'.
    destruct (string_dec name (indexName e)) as [->|Hne].
    + rewrite (find_setIndex_eq _ _ _ _ Hi0) in Hi1'.
      inversion Hi1'; subst i1'.
      exists i0. split; [exact Hi0|]. intros v k.
      rewrite Hiff.
      rewrite (R_iff _ (R (In k (bucket i0 v)) (k = key /\ v = indexKey e))
                 _ _ (Hmem1 v k) (iff_refl _)).
      rewrite R_or. apply R_iff; [tauto|]. split.
      * intros [[Hk1 Hv]|[Hk1 Hin]]; (split; [exact Hk1|]).
        -- left. destruct e; simpl in *. now subst.
        -- now right.
      * intros [Hk1 [He|Hin]].
        -- left. split; [exact Hk1|].
           destruct e; simpl in *. now inversion He.
        -- right. now split.
    + rewrite find_setIndex_ne in Hi1' by exact Hne.
      exists i1'. split; [exact Hi1'|]. intros v k.
      rewrite Hiff. apply R_iff; [tauto|]. split.
      * intros [Hk1 Hin]. split; [exact Hk1 | now right].
      * intros [Hk1 [He|Hin]]; [|now split].
        exfalso. apply Hne. subst e. reflexivity.
Qed.
End Loop.

Lemma in_removals (order : list Name) (old new : bytes) (name : Name)
    (v : bytes) :
  In {| indexName := name; indexKey := v |}
     (snd (diffIndexes order old new))
  <-> In name order /\ In v (indexValues name old)
      /\ ~ In v (indexValues name new).
Proof.
  rewrite diffIndexes_flat_map. simpl. rewrite in_flat_map. split.
  - intros (n & Hn & He). apply in_getOneWayDiffs in He. simpl in He.
    destruct He as (<- & H1 & H2). tauto.
  - intros (Hn & H1 & H2). exists name. split; [exact Hn|].
    apply in_getOneWayDiffs. simpl. tauto.
Qed.

Lemma in_additions (order : list Name) (old new : bytes) (name : Name)
    (v : bytes) :
  In {| indexName := name; indexKey := v |}
     (fst (diffIndexes order old new))
  <-> In name order /\ In v (indexValues name new)
      /\ ~ In v (indexValues name old).
Proof.
  rewrite diffIndexes_flat_map. simpl. rewrite in_flat_map. split.
  - intros (n & Hn & He). apply in_getOneWayDiffs in He. simpl in He.
    destruct He as (<- & H1 & H2). tauto.
  - intros (Hn & H1 & H2). exists name. split; [exact Hn|].
    apply in_getOneWayDiffs. simpl. tauto.
Qed.

Lemma diff_names_in_order (order : list Name) (old new : bytes)
    (e : diffEntry) :
  In e (fst (diffIndexes order old new))
  \/ In e (snd (diffIndexes order old new)) ->
  In (indexName e) order.
Proof.
  destruct e as [n v]. simpl.
  intros [H|H]; [apply in_additions in H | apply in_removals in H]; tauto.
Qed.
End TableFacts.

Section InvariantFacts.
Context {C : Codec} {L : CodecLaws C}.

(** On a table whose buckets decode, [updateIndex] returns with no error
    and moves [key], and only [key], between the buckets of each declared
    index as the two payloads tell. *)
Lemma updateIndex_spec (fuel : nat) (order : list Name) (t : Table)
    (key : string) (old new : bytes) :
  bucketsDecode t -> rangeOrder t order ->
  exists t',
    updateIndex (S fuel) order t key old new = Done (t', None)
    /\ data t' = data t
    /\ Assoc.keys (indexes t') = Assoc.keys (indexes t)
    /\ bucketsDecode t'
    /\ forall name i',
         Index t' name = Some i' ->
         exists i,
           Index t name = Some i
           /\ forall v k,
                In k (bucket i' v)
                <-> (In k (bucket i v)
                     /\ ~ (k = key /\ In v (indexValues name old)
                           /\ ~ In v (indexValues name new)))
                    \/ (k = key /\ In v (indexValues name new)
                        /\ ~ In v (indexValues name old)).
Proof.
  intros Hdec Hord. unfold updateIndex.
  pose proof (diff_names_in_order order old new) as Hnames.
  pose proof (in_additions order old new) as Hadd.
  pose proof (in_removals order old new) as Hrem.
  destruct (diffIndexes order old new) as [additions removals].
  simpl in Hnames, Hadd, Hrem.
  assert (forall n, In n order <-> In n (Assoc.keys (indexes t))) as Hin.
  { intros n. split; apply Permutation_in;
      [exact Hord | symmetry; exact Hord]. }
  destruct (forEntries_spec (fun P Q => P /\ ~ Q)
              ltac:(intros; tauto) ltac:(intros; tauto) ltac:(intros; tauto)
              (deleteFromIndex (S fuel))
              ltac:(intros; now apply deleteFromIndex_spec)
              removals key t None Hdec)
    as (t1 & Hrun1 & Hdata1 & Hkeys1 & Hdec1 & Hmem1).
  { intros e He. apply Hin, Hnames. now right. }
  rewrite Hrun1. simpl.
  destruct (forEntries_spec (fun P Q => P \/ Q)
              ltac:(intros; tauto) ltac:(intros; tauto) ltac:(intros; tauto)
              (addToIndex (S fuel))
              ltac:(intros; now apply addToIndex_spec)
              additions key t1 None Hdec1)
    as (t2 & Hrun2 & Hdata2 & Hkeys2 & Hdec2 & Hmem2).
  { intros e He. rewrite Hkeys1. apply Hin, Hnames. now left. }
  exists t2. split; [exact Hrun2|].
  split; [congruence|]. split; [congruence|]. split; [exact Hdec2|].
  intros name i2 Hi2.
  destruct (Hmem2 name i2 Hi2) as (i1 & Hi1 & Hiff2).
  destruct (Hmem1 name i1 Hi1) as (i & Hi & Hiff1).
  exists i. split; [exact Hi|]. intros v k.
  assert (In name order) as Hname
    by (apply Hin; eapply AssocFacts.find_some_in_keys; exact Hi).
  rewrite Hiff2, Hiff1, Hadd, Hrem. tauto.
Qed.

Lemma Index_withData (t : Table) (d : KV.store) (name : Name) :
  Index (withData t d) name = Index t name.
Proof. reflexivity. Qed.

(** After the document under [key] has been replaced by [new] (or taken
    away, [new] being the nil slice) and nothing else has changed,
    [updateIndex] brings the table back to the invariant. *)
Lemma updateIndex_restores (fuel : nat) (order : list Name) (t : Table)
    (key : string) (d : KV.store) (new : bytes) :
  tableOk t -> rangeOrder t order ->
  (forall k, k <> key ->
             KV.Value (KV.Get d k) = KV.Value (KV.Get (data t) k)) ->
  sliceOf (KV.Value (KV.Get d key)) = new ->
  exists t',
    updateIndex (S fuel) order (withData t d) key (current t key) new
    = Done (t', None)
    /\ tableOk t'
    /\ Assoc.keys (indexes t') = Assoc.keys (indexes t).
Proof.
  intros [Hnd Hdec Hex] Hord Hother Hkey.
  destruct (updateIndex_spec fuel order (withData t d) key
              (current t key) new Hdec Hord)
    as (t' & Hrun & Hdata & Hkeys & Hdec' & Hmem).
  exists t'. split; [exact Hrun|]. simpl in Hdata, Hkeys.
  split; [|exact Hkeys].
  constructor.
  - now rewrite Hkeys.
  - exact Hdec'.
  - intros name i' k v Hi'.
    destruct (Hmem name i' Hi') as (i & Hi & Hiff).
    rewrite Index_withData in Hi.
    rewrite Hiff, (Hex name i k v Hi).
    unfold current at 4. rewrite Hdata.
    destruct (string_dec k key) as [->|Hne].
    + rewrite Hkey.
      destruct (in_dec string_dec v (indexValues name (current t key))),
               (in_dec string_dec v (indexValues name new));
        intuition.
    + rewrite (Hother k Hne). fold (current t k). tauto.
Qed.

(** Every call of [Set] returns and hands back a table that satisfies the
    invariant, whether it wrote or refused. *)
Lemma Set_preserves (fuel : nat) (order : list Name) (t : Table)
    (key : string) (value : Any) (counter : list Z) :
  tableOk t -> rangeOrder t order ->
  exists t' err,
    Set_ (S fuel) order t key value counter = Done (t', err)
    /\ tableOk t'
    /\ Assoc.keys (indexes t') = Assoc.keys (indexes t).
Proof.
  intros Hok Hord. unfold Set_.
  match goal with |- context [if ?b then _ else _] => destruct b end;
    [now exists t, (Some ErrCounterChanged)|].
  destruct (Marshal value) as [encoded|e]; [|now exists t, (Some e)].
  assert (forall c,
    exists t' err,
      (r <- updateIndex (S fuel) order
              (withData t (Assoc.put key (encoded, c) (data t))) key
              (sliceOf (KV.Value (KV.Get (data t) key))) encoded ;;
       Done (fst r, @None error)) = Done (t', err)
      /\ tableOk t'
      /\ Assoc.keys (indexes t') = Assoc.keys (indexes t)) as Hwrite.
  { intros c.
    destruct (updateIndex_restores fuel order t key
                (Assoc.put key (encoded, c) (data t)) encoded Hok Hord)
      as (t' & Hrun & Hok' & Hkeys).
    - intros k Hne. unfold KV.Get.
      now rewrite AssocFacts.find_put_ne.
    - unfold KV.Get. now rewrite AssocFacts.find_put_eq.
    - exists t', None. unfold current in Hrun. rewrite Hrun. now simpl. }
  destruct counter as [|c more].
  - unfold KV.Set_. apply Hwrite.
  - unfold KV.CompareAndSet.
    destruct (Assoc.find key (data t)) as [[v0 c0]|];
      [|now exists t, (Some ErrCounterChanged)].
    destruct (c0 =? uint16 c)%Z;
      [apply Hwrite | now exists t, (Some ErrCounterChanged)].
Qed.

(** Every call of [Delete] returns and hands back a table that satisfies
    the invariant. *)
Lemma Delete_preserves (fuel : nat) (order : list Name) (t : Table)
    (key : string) (counter : list Z) :
  tableOk t -> rangeOrder t order ->
  exists t' err,
    Delete (S fuel) order t key counter = Done (t', err)
    /\ tableOk t'
    /\ Assoc.keys (indexes t') = Assoc.keys (indexes t).
Proof.
  intros Hok Hord. unfold Delete.
  destruct (KV.Value (KV.Get (data t) key)) as [v0|] eqn:Hv;
    [|now exists t, None].
  match goal with |- context [if ?b then _ else _] => destruct b end;
    [now exists t, (Some ErrCounterChanged)|].
  assert (exists t' err,
      (r <- updateIndex (S fuel) order
              (withData t (Assoc.del key (data t))) key
              (sliceOf (Some v0)) (sliceOf None) ;;
       Done (fst r, @None error)) = Done (t', err)
      /\ tableOk t'
      /\ Assoc.keys (indexes t') = Assoc.keys (indexes t)) as Hwrite.
  { destruct (updateIndex_restores fuel order t key
                (Assoc.del key (data t)) (sliceOf None) Hok Hord)
      as (t' & Hrun & Hok' & Hkeys).
    - intros k Hne. unfold KV.Get.
      now rewrite AssocFacts.find_del_ne.
    - unfold KV.Get. now rewrite AssocFacts.find_del_eq.
    - exists t', None. unfold current in Hrun. rewrite Hv in Hrun.
      rewrite Hrun. now simpl. }
  destruct counter as [|c more].
  - unfold KV.Delete. apply Hwrite.
  - unfold KV.CompareAndDelete.
    destruct (Assoc.find key (data t)) as [[v1 c1]|];
      [|now exists t, (Some ErrCounterChanged)].
    destruct (c1 =? uint16 c)%Z;
      [apply Hwrite | now exists t, (Some ErrCounterChanged)].
Qed.

(** A new table satisfies the invariant: no document, no bucket. *)
Lemma newTable_ok (names : list Name) :
  NoDup names -> tableOk (newTable names).
Proof.
  intros Hnd.
  assert (forall name i, Index (newTable names) name = Some i -> i = KV.empty)
    as Hempty.
  { unfold Index, newTable. simpl. intros name i.
    induction names as [|n names IH]; simpl; [discriminate|].
    inversion Hnd; subst.
    destruct (String.eqb name n); [now inversion 1 | now apply IH]. }
  constructor.
  - unfold newTable, Assoc.keys. simpl. rewrite map_map. simpl.
    now rewrite map_id.
  - intros name i Hi v raw c Hf. rewrite (Hempty _ _ Hi) in Hf. discriminate.
  - intros name i k v Hi. rewrite (Hempty _ _ Hi).
    unfold current, newTable, bucket, indexValues. simpl.
    destruct (Query EmptyString name); simpl; tauto.
Qed.
End InvariantFacts.

(** ** The index invariant over sequences of writes *)

Section SequenceFacts.
Context {C : Codec} {L : CodecLaws C}.

Lemma step_preserves (fuel : nat) (t : Table) (o : op) :
  tableOk t -> rangeOrder t (opOrder o) ->
  exists t' err,
    step (S fuel) t o = Done (t', err)
    /\ tableOk t'
    /\ Assoc.keys (indexes t') = Assoc.keys (indexes t).
Proof.
  destruct o as [key value counter order | key counter order]; simpl.
  - apply Set_preserves.
  - apply Delete_preserves.
Qed.

Lemma run_preserves (fuel : nat) (ops : list op) :
  forall t : Table,
    tableOk t ->
    Forall (fun o => rangeOrder t (opOrder o)) ops ->
    exists t' errs,
      run (S fuel) ops t = Done (t', errs)
      /\ List.length errs = List.length ops
      /\ tableOk t'.
Proof.
  induction ops as [|o ops IH]; intros t Hok Hall.
  - exists t, []. now simpl.
  - inversion Hall as [|? ? Ho Hops]; subst.
    destruct (step_preserves fuel t o Hok Ho) as (t1 & e1 & Hstep & Hok1 & Hk).
    destruct (IH t1 Hok1) as (t' & errs & Hrun & Hlen & Hok').
    { eapply Forall_impl; [|exact Hops].
      intros o'. unfold rangeOrder. now rewrite Hk. }
    exists t', (e1 :: errs).
    change (run (S fuel) (o :: ops) t)
      with (r <- step (S fuel) t o ;;
            r' <- run (S fuel) ops (fst r) ;;
            Done (fst r', snd r :: snd r')).
    rewrite Hstep. simpl bind. rewrite Hrun. simpl.
    split; [reflexivity|]. split; [now rewrite Hlen | exact Hok'].
Qed.

(** C1.  Start from a table that satisfies the index invariant (a new
    table does) and run any finite sequence of [Set] and [Delete] calls,
    each ranging over the declared indexes in some order.  Every call
    returns, and in the final table, for every declared index and every
    primary key [k], [k] is listed in the bucket of an index key exactly
    when that index key is the canonical byte form of a value extracted
    from the document [k] holds now.  The calls that were refused (a
    stale counter, a value that does not encode) wrote nothing, so the
    statement holds in particular for the sequences in which no call
    failed. *)
Theorem index_exact_after_writes
    (fuel : nat) (ops : list op) (t0 : Table) :
  tableOk t0 ->
  Forall (fun o => rangeOrder t0 (opOrder o)) ops ->
  exists t errs,
    run (S fuel) ops t0 = Done (t, errs)
    /\ List.length errs = List.length ops
    /\ forall (name : Name) (i : KV.store) (k : string) (v : bytes),
         Index t name = Some i ->
         (In k (bucket i v)
          <-> exists x,
                In x (match Query (current t k) name with
                      | None => []
                      | Some l =>
                          if (String.length (current t k) =? 0)%nat
                          then [] else l
                      end)
                /\ valueToBytes x = v).
Proof.
  intros Hok Hall.
  destruct (run_preserves fuel ops t0 Hok Hall) as (t & errs & Hrun & Hlen & Hok').
  exists t, errs. split; [exact Hrun|]. split; [exact Hlen|].
  intros name i k v Hi.
  rewrite (ok_exact t Hok' name i k v Hi). unfold indexValues.
  rewrite in_map_iff. split; intros (x & H1 & H2); exists x; tauto.
Qed.
End SequenceFacts.

(** The sample codec keeps its contract. *)
Lemma Sample_decode_encodeKey (s : string) (rest : bytes) (l : list string) :
  Sample.decodeKeys rest = Ok l ->
  Sample.decodeKeys (Sample.encodeKey s ++ rest)%string = Ok (s :: l).
Proof.
  intros H. induction s as [|c s IH]; simpl.
  - now rewrite H.
  - now rewrite IH.
Qed.

Lemma Sample_laws : CodecLaws Sample.codec.
Proof.
  constructor.
  - intros x y. simpl. destruct x, y; simpl; split;
      try congruence; try reflexivity.
    + intros H. apply String.eqb_eq in H. now subst.
    + intros H. inversion H. apply String.eqb_refl.
  - intros l. simpl. induction l as [|s l IH]; simpl; [reflexivity|].
    now apply Sample_decode_encodeKey.
Qed.

(** The scenario of the index on a multi-valued field, run on the sample
    codec: after the second write the bucket of a is gone, the bucket of b
    is as it was and the bucket of c is new. *)
Example scenario_run :
  @run Sample.codec 1 Sample.scenario (newTable ["chars"])
  = Done ({| indexes := [("chars", [("b", (Sample.encodeKeys ["x"], 1%Z));
                                    ("c", (Sample.encodeKeys ["x"], 1%Z))])];
             data := [("x", ("bc", 2%Z))] |},
          [None; None; None]).
Proof. vm_compute. reflexivity. Qed.

Example held_is_reached :
  @run Sample.codec 1
    [@OpSet Sample.codec "k" (Sample.VString "lo") [] ["chars"]]
    (newTable ["chars"])
  = Done (Sample.held, [None]).
Proof. vm_compute. reflexivity. Qed.

Lemma index_exact_after_writes_witness :
  tableOk (C := Sample.codec) (newTable ["chars"])
  /\ Forall (fun o => rangeOrder (newTable ["chars"]) (opOrder o))
       Sample.scenario
  /\ exists t errs,
       @run Sample.codec 1 Sample.scenario (newTable ["chars"])
       = Done (t, errs)
       /\ List.length errs = 3
       /\ forall (name : Name) (i : KV.store) (k : string) (v : bytes),
            Index t name = Some i ->
            (In k (@bucket Sample.codec i v)
             <-> exists x,
                   In x (match Sample.query (current t k) name with
                         | None => []
                         | Some l =>
                             if (String.length (current t k) =? 0)%nat
                             then [] else l
                         end)
                   /\ Sample.toBytes x = v).
Proof.
  assert (tableOk (C := Sample.codec) (newTable ["chars"])) as Hok.
  { apply (@newTable_ok Sample.codec).
    constructor; [simpl; tauto | constructor]. }
  assert (Forall (fun o => rangeOrder (newTable ["chars"])
                             (@opOrder Sample.codec o))
            Sample.scenario) as Hall
    by (repeat constructor).
  split; [exact Hok | split; [exact Hall |]].
  exact (@index_exact_after_writes Sample.codec Sample_laws 0
           Sample.scenario (newTable ["chars"]) Hok Hall).
Defined.

(** * Further properties of table.go *)

(** ** The diff engine, continued *)

Section DiffMore.
Context {C : Codec}.

(** [getOneWayDiffs] keeps, in their order in [a], the elements of [a] that
    do not occur in [b], and tags each with the index name. *)
Theorem getOneWayDiffs_is_filter (name : string) (a b : list bytes) :
  getOneWayDiffs name a b
  = map (fun aa => {| indexName := name; indexKey := aa |})
      (filter (fun aa => negb (found aa b)) a).
Proof.
  induction a as [|aa a IH]; simpl; [reflexivity|].
  destruct (found aa b); simpl; now rewrite IH.
Qed.

(** What [diffIndexes] returns, entry by entry: an addition names a visited
    index and a value the new payload yields and the old one does not, a
    removal the reverse; no entry is both an addition and a removal. *)
Theorem diffIndexes_entries
    (order : list Name) (old new : bytes) (e : diffEntry) :
  (In e (fst (diffIndexes order old new))
   <-> In (indexName e) order
       /\ In (indexKey e) (indexValues (indexName e) new)
       /\ ~ In (indexKey e) (indexValues (indexName e) old))
  /\ (In e (snd (diffIndexes order old new))
      <-> In (indexName e) order
          /\ In (indexKey e) (indexValues (indexName e) old)
          /\ ~ In (indexKey e) (indexValues (indexName e) new))
  /\ ~ (In e (fst (diffIndexes order old new))
        /\ In e (snd (diffIndexes order old new))).
Proof.
  assert (forall A B : bytes,
            In e (flat_map (fun n => getOneWayDiffs n (indexValues n A)
                                       (indexValues n B)) order)
            <-> In (indexName e) order
                /\ In (indexKey e) (indexValues (indexName e) A)
                /\ ~ In (indexKey e) (indexValues (indexName e) B)) as H.
  { intros A B. rewrite in_flat_map. split.
    - intros (n & Hn & He). apply in_getOneWayDiffs in He.
      destruct He as (<- & H1 & H2). tauto.
    - intros (Hn & H1 & H2). exists (indexName e). split; [exact Hn|].
      apply in_getOneWayDiffs. tauto. }
  rewrite diffIndexes_flat_map. simpl. rewrite !H. tauto.
Qed.

Lemma getOneWayDiffs_covered (name : string) (a b : list bytes) :
  (forall v, In v a -> In v b) -> getOneWayDiffs name a b = [].
Proof.
  intros Hsub. induction a as [|aa a IH]; simpl; [reflexivity|].
  assert (found aa b = true) as ->
    by (apply found_In, Hsub; now left).
  apply IH. intros v Hv. apply Hsub. now right.
Qed.

Lemma diffIndexes_nothing (order : list Name) (old new : bytes) :
  (forall name v, In name order ->
     (In v (indexValues name old) <-> In v (indexValues name new))) ->
  diffIndexes order old new = ([], []).
Proof.
  intros Hsame. rewrite diffIndexes_flat_map.
  assert (forall A B : bytes,
            (forall name v, In name order ->
               In v (indexValues name A) -> In v (indexValues name B)) ->
            flat_map (fun n => getOneWayDiffs n (indexValues n A)
                                 (indexValues n B)) order = []) as H.
  { intros A B Hsub. induction order as [|n order IH]; simpl; [reflexivity|].
    rewrite getOneWayDiffs_covered.
    - apply IH.
      + intros name v Hn. apply Hsame. now right.
      + intros name v Hn. apply Hsub. now right.
    - intros v. apply Hsub. now left. }
  rewrite !H; [reflexivity | |]; intros name v Hn; now apply Hsame.
Qed.

(** Two payloads that yield the same values under every visited index,
    in whatever order and number, give no addition and no removal. *)
Theorem diffIndexes_same_values (order : list Name) (old new : bytes) :
  (forall name v, In name order ->
     (In v (indexValues name old) <-> In v (indexValues name new))) ->
  diffIndexes order old new = ([], []).
Proof. apply diffIndexes_nothing. Qed.

(** Whatever the bucket operation does, a loop of [updateIndex] that
    returns has left the documents and the set of index names alone. *)
Lemma forEntries_keeps_documents
    (op : KV.store -> bytes -> string -> res (KV.store * option error))
    (entries : list diffEntry) (key : string) :
  forall (t t' : Table) (lastError err : option error),
    forEntries op entries key t lastError = Done (t', err) ->
    data t' = data t
    /\ Assoc.keys (indexes t') = Assoc.keys (indexes t).
Proof.
  induction entries as [|e es IH]; intros t t' lastError err; simpl.
  - intros H. inversion H; subst. split; reflexivity.
  - destruct (Index t (indexName e)) as [i|]; [|discriminate].
    destruct (op i (indexKey e) key) as [r| |]; simpl; try discriminate.
    intros H. apply IH in H. simpl in H.
    destruct H as [Hd Hk]. split; [exact Hd|].
    rewrite Hk. apply keys_setIndex.
Qed.

Lemma updateIndex_same_data
    (fuel : nat) (order : list Name) (t t' : Table) (key : string)
    (old new : bytes) (err : option error) :
  updateIndex fuel order t key old new = Done (t', err) ->
  data t' = data t /\ Assoc.keys (indexes t') = Assoc.keys (indexes t).
Proof.
  unfold updateIndex.
  destruct (diffIndexes order old new) as [additions removals].
  destruct (forEntries (deleteFromIndex fuel) removals key t None)
    as [[t1 e1]| |] eqn:H1; simpl; try discriminate.
  intros H2.
  apply forEntries_keeps_documents in H1.
  apply forEntries_keeps_documents in H2.
  destruct H1 as [Hd1 Hk1], H2 as [Hd2 Hk2]. split; congruence.
Qed.

(** Index maintenance never touches the documents: when [updateIndex]
    returns, with an error or without, the document keyspace is the one it
    was given and the table has the same index names. *)
Theorem updateIndex_keeps_documents
    (fuel : nat) (order : list Name) (t t' : Table) (key : string)
    (old new : bytes) (err : option error) :
  updateIndex fuel order t key old new = Done (t', err) ->
  data t' = data t /\ Assoc.keys (indexes t') = Assoc.keys (indexes t).
Proof. apply updateIndex_same_data. Qed.
End DiffMore.

(** ** Reads after writes *)

Section ReadWrite.
Context {C : Codec}.

(** The two ways [Set] can return: refused with the table as it was, or
    nil with the encoded value stored under [key], its counter one above
    the one read, and the index names as before. *)
Lemma Set_outcome (fuel : nat) (order : list Name) (t t' : Table)
    (key : string) (value : Any) (counter : list Z) (err : option error) :
  Set_ fuel order t key value counter = Done (t', err) ->
  (err <> None /\ t' = t)
  \/ (err = None
      /\ exists enc,
           Marshal value = Ok enc
           /\ data t'
              = Assoc.put key
                  (enc, KV.next_counter (KV.Counter (KV.Get (data t) key)))
                  (data t)
           /\ Assoc.keys (indexes t') = Assoc.keys (indexes t)).
Proof.
  unfold Set_.
  match goal with |- context [if ?b then _ else _] => destruct b end.
  { intros H; inversion H; subst. left. split; [discriminate | reflexivity]. }
  destruct (Marshal value) as [enc|e].
  2:{ intros H; inversion H; subst. left. split; [discriminate | reflexivity]. }
  assert (forall d,
    (r <- updateIndex fuel order (withData t d) key
            (sliceOf (KV.Value (KV.Get (data t) key))) enc ;;
     Done (fst r, @None error)) = Done (t', err) ->
    err = None /\ data t' = d
    /\ Assoc.keys (indexes t') = Assoc.keys (indexes t)) as Hw.
  { intros d H.
    destruct (updateIndex fuel order (withData t d) key
                (sliceOf (KV.Value (KV.Get (data t) key))) enc)
      as [[t1 e1]| |] eqn:U; simpl in H; try discriminate.
    inversion H; subst. apply updateIndex_same_data in U. simpl in *.
    tauto. }
  destruct counter as [|c more].
  - intros H. apply Hw in H. destruct H as (-> & Hd & Hk).
    right. split; [reflexivity|]. exists enc. now repeat split.
  - unfold KV.CompareAndSet, KV.Get.
    destruct (Assoc.find key (data t)) as [[v0 c0]|] eqn:F.
    2:{ intros H; inversion H; subst. left.
        split; [discriminate | reflexivity]. }
    simpl. destruct (c0 =? uint16 c)%Z.
    2:{ intros H; inversion H; subst. left.
        split; [discriminate | reflexivity]. }
    intros H. unfold KV.Get in Hw. rewrite F in Hw. apply Hw in H.
    destruct H as (-> & Hd & Hk).
    right. split; [reflexivity|]. exists enc. now repeat split.
Qed.

(** The ways [Delete] can return: refused, nothing to delete, or nil with
    the document gone. *)
Lemma Delete_outcome (fuel : nat) (order : list Name) (t t' : Table)
    (key : string) (counter : list Z) (err : option error) :
  Delete fuel order t key counter = Done (t', err) ->
  (err <> None /\ t' = t)
  \/ (err = None /\ Assoc.find key (data t) = None /\ t' = t)
  \/ (err = None
      /\ data t' = Assoc.del key (data t)
      /\ Assoc.keys (indexes t') = Assoc.keys (indexes t)).
Proof.
  unfold Delete, KV.Get.
  destruct (Assoc.find key (data t)) as [[v0 c0]|] eqn:F; simpl.
  2:{ intros H; inversion H; subst. right. left. now repeat split. }
  match goal with |- context [if ?b then _ else _] => destruct b end.
  { intros H; inversion H; subst. left. split; [discriminate | reflexivity]. }
  assert (
    (r <- updateIndex fuel order (withData t (Assoc.del key (data t))) key
            v0 EmptyString ;;
     Done (fst r, @None error)) = Done (t', err) ->
    err = None /\ data t' = Assoc.del key (data t)
    /\ Assoc.keys (indexes t') = Assoc.keys (indexes t)) as Hw.
  { intros H.
    destruct (updateIndex fuel order (withData t (Assoc.del key (data t)))
                key v0 EmptyString) as [[t1 e1]| |] eqn:U;
      simpl in H; try discriminate.
    inversion H; subst. apply updateIndex_same_data in U. simpl in *.
    tauto. }
  destruct counter as [|c more].
  - intros H. right. right. now apply Hw.
  - unfold KV.CompareAndDelete. rewrite F.
    destruct (c0 =? uint16 c)%Z.
    + intros H. right. right. now apply Hw.
    + intros H; inversion H; subst. left.
      split; [discriminate | reflexivity].
Qed.

(** Whenever [Set] returns nil, a [Get] of the same key hands back the
    value just encoded, under a counter one above the one the key had
    (modulo 65536; an absent key counts as 0). *)
Theorem Get_after_Set (fuel : nat) (order : list Name) (t t' : Table)
    (key : string) (value : Any) (counter : list Z)
    (D : Type) (decode : bytes -> result D) :
  Set_ fuel order t key value counter = Done (t', None) ->
  exists enc,
    Marshal value = Ok enc
    /\ Get t' key decode
       = (KV.next_counter (KV.Counter (KV.Get (data t) key)), decode enc).
Proof.
  intros H. apply Set_outcome in H.
  destruct H as [[Hne _]|(_ & enc & Hm & Hd & _)]; [congruence|].
  exists enc. split; [exact Hm|].
  unfold Get, KV.Get. rewrite Hd, AssocFacts.find_put_eq. reflexivity.
Qed.

(** A [Set] on one key, accepted or refused, leaves what [Get] returns for
    every other key as it was. *)
Theorem Set_leaves_other_keys (fuel : nat) (order : list Name)
    (t t' : Table) (key k : string) (value : Any) (counter : list Z)
    (err : option error) (D : Type) (decode : bytes -> result D) :
  Set_ fuel order t key value counter = Done (t', err) ->
  k <> key ->
  Get t' k decode = Get t k decode.
Proof.
  intros H Hne. apply Set_outcome in H.
  destruct H as [[_ ->]|(_ & enc & _ & Hd & _)]; [reflexivity|].
  unfold Get, KV.Get. rewrite Hd, AssocFacts.find_put_ne by exact Hne.
  reflexivity.
Qed.

(** Whenever [Delete] returns nil, a [Get] of the same key answers
    [ErrNotFound]; and accepted or refused, it leaves what [Get] returns
    for every other key as it was. *)
Theorem Get_after_Delete (fuel : nat) (order : list Name) (t t' : Table)
    (key : string) (counter : list Z) (err : option error)
    (D : Type) (decode : bytes -> result D) :
  Delete fuel order t key counter = Done (t', err) ->
  (err = None -> Get t' key decode = (0%Z, Err ErrNotFound))
  /\ (forall k, k <> key -> Get t' k decode = Get t k decode).
Proof.
  intros H. apply Delete_outcome in H.
  destruct H as [[Hne ->]|[(-> & F & ->)|(-> & Hd & _)]].
  - split; [congruence | reflexivity].
  - split; [|reflexivity]. intros _. unfold Get, KV.Get. now rewrite F.
  - split.
    + intros _. unfold Get, KV.Get. now rewrite Hd, AssocFacts.find_del_eq.
    + intros k Hne. unfold Get, KV.Get.
      now rewrite Hd, AssocFacts.find_del_ne.
Qed.
End ReadWrite.

(** ** The index engine, continued *)

Section BucketMore.
Context {C : Codec} {L : CodecLaws C}.

Lemma removeFirst_absent (key : string) (l : list string) :
  ~ In key l -> removeFirst key l = None.
Proof.
  induction l as [|v r IH]; simpl; [reflexivity|].
  intros H. destruct (String.eqb v key) eqn:E.
  - apply String.eqb_eq in E. tauto.
  - rewrite IH; tauto.
Qed.

Lemma removeFirst_last (key : string) (l : list string) :
  ~ In key l -> removeFirst key (l ++ [key]) = Some l.
Proof.
  induction l as [|v r IH]; simpl.
  - now rewrite String.eqb_refl.
  - intros H. destruct (String.eqb v key) eqn:E.
    + apply String.eqb_eq in E. tauto.
    + rewrite IH; tauto.
Qed.

Lemma existsb_eqb_last (key : string) (l : list string) :
  existsb (fun item => String.eqb item key) (l ++ [key]) = true.
Proof. apply existsb_eqb_In, in_or_app. right. now left. Qed.

(** One pass of each bucket operation, on a bucket that is stored and
    decodes and on one that is not stored. *)
Lemma addToIndex_stored (fuel : nat) (i : KV.store) (indexKey raw : bytes)
    (c : Z) (l : list string) (key : string) :
  Assoc.find indexKey i = Some (raw, c) -> unmarshalKeys raw = Ok l ->
  addToIndex (S fuel) i indexKey key
  = if existsb (fun item => String.eqb item key) l then Done (i, None)
    else Done (Assoc.put indexKey
                 (marshalKeys (l ++ [key]), KV.next_counter c) i, None).
Proof.
  intros F Hl. simpl. unfold KV.Get. rewrite F. simpl. rewrite Hl.
  destruct (existsb _ l); [reflexivity|].
  unfold KV.CompareAndSet. now rewrite F, Z.eqb_refl.
Qed.

Lemma addToIndex_unstored (fuel : nat) (i : KV.store) (indexKey : bytes)
    (key : string) :
  Assoc.find indexKey i = None ->
  addToIndex (S fuel) i indexKey key
  = Done (Assoc.put indexKey (marshalKeys [key], KV.next_counter 0) i, None).
Proof.
  intros F. simpl. unfold KV.Get, KV.Set_, KV.Get. now rewrite F.
Qed.

Lemma deleteFromIndex_stored (fuel : nat) (i : KV.store)
    (indexKey raw : bytes) (c : Z) (l : list string) (key : string) :
  Assoc.find indexKey i = Some (raw, c) -> unmarshalKeys raw = Ok l ->
  deleteFromIndex (S fuel) i indexKey key
  = match removeFirst key l with
    | None => Done (i, None)
    | Some [] => Done (Assoc.del indexKey i, None)
    | Some l' =>
        Done (Assoc.put indexKey (marshalKeys l', KV.next_counter c) i, None)
    end.
Proof.
  intros F Hl. simpl. unfold KV.Get. rewrite F. simpl. rewrite Hl.
  destruct (removeFirst key l) as [[|x l']|]; [| |reflexivity].
  - unfold KV.CompareAndDelete. now rewrite F, Z.eqb_refl.
  - unfold KV.CompareAndSet. now rewrite F, Z.eqb_refl.
Qed.

(** [addToIndex] on a keyspace whose buckets decode: a key already in the
    bucket leaves the keyspace as it is; a new key goes to the end of the
    bucket's list; no other bucket changes; and a second call for the same
    key changes nothing. *)
Theorem addToIndex_appends_once (fuel : nat) (i : KV.store)
    (indexKey : bytes) (key : string) :
  decodes i ->
  exists i',
    addToIndex (S fuel) i indexKey key = Done (i', None)
    /\ bucket i' indexKey
       = (if existsb (fun item => String.eqb item key) (bucket i indexKey)
          then bucket i indexKey
          else bucket i indexKey ++ [key])
    /\ (In key (bucket i indexKey) -> i' = i)
    /\ (forall v, v <> indexKey -> bucket i' v = bucket i v)
    /\ addToIndex (S fuel) i' indexKey key = Done (i', None).
Proof.
  intros Hd.
  destruct (Assoc.find indexKey i) as [[raw c]|] eqn:F.
  - destruct (Hd _ _ _ F) as (l & Hl & Hnd).
    rewrite (addToIndex_stored _ _ _ _ _ _ _ F Hl).
    rewrite (bucket_stored _ _ _ _ _ F Hl).
    destruct (existsb (fun item => String.eqb item key) l) eqn:E.
    + exists i. split; [reflexivity|].
      split; [apply (bucket_stored _ _ _ _ _ F Hl)|].
      split; [reflexivity|]. split; [reflexivity|].
      now rewrite (addToIndex_stored _ _ _ _ _ _ _ F Hl), E.
    + eexists. split; [reflexivity|].
      split; [apply bucket_put_eq|].
      split; [intros Hin; apply existsb_eqb_In in Hin; congruence|].
      split; [intros v Hne; now apply bucket_put_ne|].
      rewrite (addToIndex_stored _ _ _ _ _ (l ++ [key]) _
                 (AssocFacts.find_put_eq _ _ _) (unmarshal_marshalKeys _)).
      now rewrite existsb_eqb_last.
  - rewrite (addToIndex_unstored _ _ _ _ F), (bucket_absent _ _ F).
    eexists. split; [reflexivity|].
    split; [apply bucket_put_eq|].
    split; [intros []|].
    split; [intros v Hne; now apply bucket_put_ne|].
    rewrite (addToIndex_stored _ _ _ _ _ [key] _
               (AssocFacts.find_put_eq _ _ _) (unmarshal_marshalKeys _)).
    simpl. now rewrite String.eqb_refl.
Qed.

(** [deleteFromIndex] is tolerant: asked to take a key out of a bucket
    that is not stored, or that does not list the key, it returns nil and
    leaves the keyspace as it is. *)
Theorem deleteFromIndex_missing_key (fuel : nat) (i : KV.store)
    (indexKey : bytes) (key : string) :
  decodes i ->
  ~ In key (bucket i indexKey) ->
  deleteFromIndex (S fuel) i indexKey key = Done (i, None).
Proof.
  intros Hd Hnotin.
  destruct (Assoc.find indexKey i) as [[raw c]|] eqn:F.
  - destruct (Hd _ _ _ F) as (l & Hl & _).
    rewrite (bucket_stored _ _ _ _ _ F Hl) in Hnotin.
    rewrite (deleteFromIndex_stored _ _ _ _ _ _ _ F Hl).
    now rewrite removeFirst_absent.
  - simpl. unfold KV.Get. now rewrite F.
Qed.

(** Adding a key to a bucket that does not list it and deleting it again
    gives every bucket the list it had, and a bucket that was not stored
    before is not stored after. *)
Theorem addToIndex_then_deleteFromIndex (fuel : nat) (i : KV.store)
    (indexKey : bytes) (key : string) :
  decodes i ->
  ~ In key (bucket i indexKey) ->
  exists i1 i2,
    addToIndex (S fuel) i indexKey key = Done (i1, None)
    /\ deleteFromIndex (S fuel) i1 indexKey key = Done (i2, None)
    /\ (forall v, bucket i2 v = bucket i v)
    /\ (Assoc.find indexKey i = None -> Assoc.find indexKey i2 = None).
Proof.
  intros Hd Hnotin.
  destruct (Assoc.find indexKey i) as [[raw c]|] eqn:F.
  - destruct (Hd _ _ _ F) as (l & Hl & Hnd).
    pose proof (bucket_stored _ _ _ _ _ F Hl) as Hb.
    rewrite Hb in Hnotin.
    rewrite (addToIndex_stored _ _ _ _ _ _ _ F Hl).
    assert (existsb (fun item => String.eqb item key) l = false) as ->.
    { destruct (existsb _ l) eqn:E; [|reflexivity].
      apply existsb_eqb_In in E. contradiction. }
    exists (Assoc.put indexKey
              (marshalKeys (l ++ [key]), KV.next_counter c) i).
    rewrite (deleteFromIndex_stored _ _ _ _ _ (l ++ [key]) _
               (AssocFacts.find_put_eq _ _ _) (unmarshal_marshalKeys _)).
    rewrite (removeFirst_last _ _ Hnotin).
    destruct l as [|x l].
    + eexists. split; [reflexivity|].
      split; [reflexivity|]. split; [|discriminate].
      intros v. destruct (string_dec v indexKey) as [->|Hne].
      * now rewrite bucket_del_eq, Hb.
      * now rewrite bucket_del_ne, bucket_put_ne.
    + eexists. split; [reflexivity|].
      split; [reflexivity|]. split; [|discriminate].
      intros v. destruct (string_dec v indexKey) as [->|Hne].
      * now rewrite bucket_put_eq, Hb.
      * now rewrite !bucket_put_ne.
  - rewrite (addToIndex_unstored _ _ _ _ F).
    eexists. eexists. split; [reflexivity|].
    rewrite (deleteFromIndex_stored _ _ _ _ _ [key] _
               (AssocFacts.find_put_eq _ _ _) (unmarshal_marshalKeys _)).
    simpl. rewrite String.eqb_refl.
    split; [reflexivity|]. split.
    + intros v. destruct (string_dec v indexKey) as [->|Hne].
      * now rewrite bucket_del_eq, (bucket_absent _ _ F).
      * now rewrite bucket_del_ne, bucket_put_ne.
    + intros _. apply AssocFacts.find_del_eq.
Qed.
End BucketMore.

Section CorruptBucket.
Context {C : Codec}.

(** A stored bucket that does not decode is reported and left alone: both
    bucket operations return the decoder's error and the keyspace as it
    was. *)
Theorem corrupt_bucket_is_reported (fuel : nat) (i : KV.store)
    (indexKey raw : bytes) (c : Z) (key : string) (e : error) :
  Assoc.find indexKey i = Some (raw, c) ->
  unmarshalKeys raw = Err e ->
  deleteFromIndex (S fuel) i indexKey key = Done (i, Some e)
  /\ addToIndex (S fuel) i indexKey key = Done (i, Some e).
Proof.
  intros F E. simpl. unfold KV.Get. rewrite F. simpl. rewrite E.
  split; reflexivity.
Qed.
End CorruptBucket.

(** ** Writes and the indexes, continued *)

Section InvariantMore.
Context {C : Codec} {L : CodecLaws C}.

Lemma indexValues_nil (name : Name) : indexValues name EmptyString = [].
Proof. unfold indexValues. simpl. now destruct (Query EmptyString name). Qed.

(** Each loop of [updateIndex] keeps whatever the bucket operation keeps
    in each index keyspace. *)
Lemma forEntries_keeps_stores (P : KV.store -> Prop)
    (op : KV.store -> bytes -> string -> res (KV.store * option error))
    (entries : list diffEntry) (key : string) :
  (forall i v k i' e, P i -> op i v k = Done (i', e) -> P i') ->
  forall (t t' : Table) (lastError err : option error),
    (forall name i, Index t name = Some i -> P i) ->
    forEntries op entries key t lastError = Done (t', err) ->
    forall name i, Index t' name = Some i -> P i.
Proof.
  intros Hop. induction entries as [|e es IH];
    intros t t' lastError err Hall; simpl.
  - intros H; inversion H; subst. exact Hall.
  - destruct (Index t (indexName e)) as [i0|] eqn:Hi0; [|discriminate].
    destruct (op i0 (indexKey e) key) as [[i1 e1]| |] eqn:Hrun;
      simpl; try discriminate.
    apply IH. intros name i Hi.
    unfold Index, withIndex in Hi. simpl in Hi.
    destruct (string_dec name (indexName e)) as [->|Hne].
    + rewrite (find_setIndex_eq _ _ _ _ Hi0) in Hi. inversion Hi; subst.
      eapply Hop; [|exact Hrun]. eapply Hall; exact Hi0.
    + rewrite find_setIndex_ne in Hi by exact Hne. eapply Hall; exact Hi.
Qed.

Lemma step_keeps_stores (P : KV.store -> Prop) (fuel : nat) :
  (forall i v k i' e, P i -> deleteFromIndex fuel i v k = Done (i', e) -> P i') ->
  (forall i v k i' e, P i -> addToIndex fuel i v k = Done (i', e) -> P i') ->
  forall (t t' : Table) (o : op) (err : option error),
    (forall name i, Index t name = Some i -> P i) ->
    step fuel t o = Done (t', err) ->
    forall name i, Index t' name = Some i -> P i.
Proof.
  intros Hdel Hadd.
  assert (forall order t d key old new t1 e1,
            (forall name i, Index t name = Some i -> P i) ->
            updateIndex fuel order (withData t d) key old new = Done (t1, e1) ->
            forall name i, Index t1 name = Some i -> P i) as Hup.
  { intros order t d key old new t1 e1 Hall. unfold updateIndex.
    destruct (diffIndexes order old new) as [additions removals].
    destruct (forEntries (deleteFromIndex fuel) removals key (withData t d) None)
      as [[t2 e2]| |] eqn:H1; simpl; try discriminate.
    intros H2.
    eapply (forEntries_keeps_stores P _ _ _ Hadd); [|exact H2].
    eapply (forEntries_keeps_stores P _ _ _ Hdel); [|exact H1].
    exact Hall. }
  intros t t' o err Hall.
  destruct o as [key value counter order | key counter order]; simpl.
  - unfold Set_.
    match goal with |- context [if ?b then _ else _] => destruct b end;
      [intros H; inversion H; subst; exact Hall|].
    destruct (Marshal value) as [enc|e];
      [|intros H; inversion H; subst; exact Hall].
    match goal with
    | |- context [match ?w with KV.Written _ => _ | KV.CasMismatch => _ end] =>
        destruct w as [d|]
    end; [|intros H; inversion H; subst; exact Hall].
    destruct (updateIndex fuel order (withData t d) key _ enc)
      as [[t1 e1]| |] eqn:U; simpl; try discriminate.
    intros H; inversion H; subst. eapply Hup; eauto.
  - unfold Delete.
    destruct (KV.Value (KV.Get (data t) key));
      [|intros H; inversion H; subst; exact Hall].
    match goal with |- context [if ?b then _ else _] => destruct b end;
      [intros H; inversion H; subst; exact Hall|].
    match goal with
    | |- context [match ?w with KV.Written _ => _ | KV.CasMismatch => _ end] =>
        destruct w as [d|]
    end; [|intros H; inversion H; subst; exact Hall].
    destruct (updateIndex fuel order (withData t d) key _ _)
      as [[t1 e1]| |] eqn:U; simpl; try discriminate.
    intros H; inversion H; subst. eapply Hup; eauto.
Qed.

Lemma run_keeps_stores (P : KV.store -> Prop) (fuel : nat) :
  (forall i v k i' e, P i -> deleteFromIndex fuel i v k = Done (i', e) -> P i') ->
  (forall i v k i' e, P i -> addToIndex fuel i v k = Done (i', e) -> P i') ->
  forall (ops : list op) (t t' : Table) (errs : list (option error)),
    (forall name i, Index t name = Some i -> P i) ->
    run fuel ops t = Done (t', errs) ->
    forall name i, Index t' name = Some i -> P i.
Proof.
  intros Hdel Hadd. induction ops as [|o ops IH]; intros t t' errs Hall.
  - simpl. intros H; inversion H; subst. exact Hall.
  - change (run fuel (o :: ops) t)
      with (r <- step fuel t o ;;
            r' <- run fuel ops (fst r) ;;
            Done (fst r', snd r :: snd r')).
    destruct (step fuel t o) as [[t1 e1]| |] eqn:S1; simpl; try discriminate.
    destruct (run fuel ops t1) as [[t2 e2]| |] eqn:R; simpl; try discriminate.
    intros H; inversion H; subst.
    eapply IH; [|exact R].
    eapply (step_keeps_stores P fuel Hdel Hadd); [exact Hall | exact S1].
Qed.

Lemma noEmpty_put (i : KV.store) (v : bytes) (x : string) (l : list string)
    (c : Z) :
  noEmptyBucket i -> noEmptyBucket (Assoc.put v (marshalKeys (x :: l), c) i).
Proof.
  intros Hne v' raw' c' Hf.
  destruct (string_dec v' v) as [->|Hv].
  - rewrite AssocFacts.find_put_eq in Hf. inversion Hf; subst.
    rewrite unmarshal_marshalKeys. discriminate.
  - rewrite AssocFacts.find_put_ne in Hf by exact Hv. eapply Hne; eauto.
Qed.

Lemma noEmpty_del (i : KV.store) (v : bytes) :
  noEmptyBucket i -> noEmptyBucket (Assoc.del v i).
Proof.
  intros Hne v' raw' c' Hf.
  destruct (string_dec v' v) as [->|Hv].
  - rewrite AssocFacts.find_del_eq in Hf. discriminate.
  - rewrite AssocFacts.find_del_ne in Hf by exact Hv. eapply Hne; eauto.
Qed.

Lemma deleteFromIndex_keeps_order (fuel : nat) (i i' : KV.store)
    (v : bytes) (k : string) (e : option error) :
  decodes i /\ noEmptyBucket i ->
  deleteFromIndex (S fuel) i v k = Done (i', e) ->
  decodes i' /\ noEmptyBucket i'.
Proof.
  intros [Hd Hne].
  destruct (Assoc.find v i) as [[raw c]|] eqn:F.
  - destruct (Hd _ _ _ F) as (l & Hl & Hnd).
    rewrite (deleteFromIndex_stored _ _ _ _ _ _ _ F Hl).
    destruct (removeFirst k l) as [[|x l']|] eqn:R.
    + intros H; inversion H; subst.
      split; [now apply decodes_del | now apply noEmpty_del].
    + intros H; inversion H; subst.
      destruct (removeFirst_Some _ _ _ R Hnd) as [Hnd' _].
      split; [now apply decodes_put | now apply noEmpty_put].
    + intros H; inversion H; subst. now split.
  - simpl. unfold KV.Get. rewrite F. simpl.
    intros H; inversion H; subst. now split.
Qed.

Lemma addToIndex_keeps_order (fuel : nat) (i i' : KV.store)
    (v : bytes) (k : string) (e : option error) :
  decodes i /\ noEmptyBucket i ->
  addToIndex (S fuel) i v k = Done (i', e) ->
  decodes i' /\ noEmptyBucket i'.
Proof.
  intros [Hd Hne].
  assert (forall l, NoDup l -> ~ In k l -> NoDup (l ++ [k])) as Hnodup.
  { intros l Hnd Hnotin. apply NoDup_app; repeat split; try assumption.
    - constructor; [simpl; tauto | constructor].
    - intros x Hx [<-|[]]. contradiction. }
  destruct (Assoc.find v i) as [[raw c]|] eqn:F.
  - destruct (Hd _ _ _ F) as (l & Hl & Hnd).
    rewrite (addToIndex_stored _ _ _ _ _ _ _ F Hl).
    destruct (existsb (fun item => String.eqb item k) l) eqn:E.
    + intros H; inversion H; subst. now split.
    + intros H; inversion H; subst.
      assert (~ In k l) as Hnotin
        by (intros Hin; apply existsb_eqb_In in Hin; congruence).
      split; [apply decodes_put; auto|].
      destruct l as [|x l]; simpl; now apply noEmpty_put.
  - rewrite (addToIndex_unstored _ _ _ _ F).
    intros H; inversion H; subst.
    split; [apply decodes_put; auto|now apply noEmpty_put].
    constructor; [simpl; tauto | constructor].
Qed.

(** Buckets with no member are deleted, never stored empty: from a table
    that satisfies the index invariant and stores no empty bucket (a new
    table does), every sequence of [Set] and [Delete] calls returns and
    leaves a table that stores no empty bucket. *)
Theorem no_empty_bucket_after_writes
    (fuel : nat) (ops : list op) (t0 : Table) :
  tableOk t0 ->
  noEmptyBuckets t0 ->
  Forall (fun o => rangeOrder t0 (opOrder o)) ops ->
  exists t errs,
    run (S fuel) ops t0 = Done (t, errs) /\ noEmptyBuckets t.
Proof.
  intros Hok Hne Hall.
  destruct (run_preserves fuel ops t0 Hok Hall) as (t & errs & Hrun & _ & _).
  exists t, errs. split; [exact Hrun|].
  intros name i Hi.
  eapply (run_keeps_stores (fun i => decodes i /\ noEmptyBucket i) (S fuel)).
  - intros; eapply deleteFromIndex_keeps_order; eauto.
  - intros; eapply addToIndex_keeps_order; eauto.
  - intros n j Hj. split; [eapply (ok_decode t0 Hok); eauto | eapply Hne; eauto].
  - exact Hrun.
  - exact Hi.
Qed.

(** [Delete] on a table that satisfies the index invariant returns, and
    when it returns nil the table still satisfies the invariant and no
    bucket of any index lists the key. *)
Theorem Delete_strips_key (fuel : nat) (order : list Name) (t : Table)
    (key : string) (counter : list Z) :
  tableOk t -> rangeOrder t order ->
  exists t' err,
    Delete (S fuel) order t key counter = Done (t', err)
    /\ (err = None ->
        tableOk t'
        /\ forall name i v, Index t' name = Some i -> ~ In key (bucket i v)).
Proof.
  intros Hok Hord.
  destruct (Delete_preserves fuel order t key counter Hok Hord)
    as (t' & err & Hrun & Hok' & _).
  exists t', err. split; [exact Hrun|]. intros ->.
  split; [exact Hok'|]. intros name i v Hi.
  rewrite (ok_exact t' Hok' name i key v Hi).
  assert (current t' key = EmptyString) as ->.
  { unfold current, KV.Get. apply Delete_outcome in Hrun.
    destruct Hrun as [[Hne _]|[(_ & F & ->)|(_ & Hd & _)]].
    - congruence.
    - now rewrite F.
    - now rewrite Hd, AssocFacts.find_del_eq. }
  rewrite indexValues_nil. tauto.
Qed.

Lemma Set_accepts_live (fuel : nat) (order : list Name) (t : Table)
    (key : string) (value : Any) (raw enc : bytes) (c : Z) :
  tableOk t -> rangeOrder t order ->
  Assoc.find key (data t) = Some (raw, c) ->
  (0 <= c < 65536)%Z ->
  Marshal value = Ok enc ->
  exists t',
    Set_ (S fuel) order t key value [c] = Done (t', None)
    /\ tableOk t'
    /\ data t' = Assoc.put key (enc, KV.next_counter c) (data t).
Proof.
  intros Hok Hord F Hc Hm.
  destruct (updateIndex_restores fuel order t key
              (Assoc.put key (enc, KV.next_counter c) (data t)) enc Hok Hord)
    as (t' & Hrun & Hok' & _).
  - intros k Hne. unfold KV.Get. now rewrite AssocFacts.find_put_ne.
  - unfold KV.Get. now rewrite AssocFacts.find_put_eq.
  - exists t'. split; [|split; [exact Hok'|]].
    + unfold Set_, KV.CompareAndSet, KV.Get. rewrite F. simpl.
      unfold uint16. rewrite (Z.mod_small c 65536 Hc), Z.eqb_refl. simpl.
      rewrite Hm. unfold current, KV.Get in Hrun. rewrite F in Hrun.
      simpl in Hrun. rewrite Hrun. reflexivity.
    + apply updateIndex_same_data in Hrun. tauto.
Qed.

(** [Set] with the counter the document has now is accepted: on a table
    that satisfies the index invariant it returns nil, stores the encoded
    value under the next counter and keeps the invariant. *)
Theorem Set_with_live_counter (fuel : nat) (order : list Name) (t : Table)
    (key : string) (value : Any) (raw enc : bytes) (c : Z) :
  tableOk t -> rangeOrder t order ->
  Assoc.find key (data t) = Some (raw, c) ->
  (0 <= c < 65536)%Z ->
  Marshal value = Ok enc ->
  exists t',
    Set_ (S fuel) order t key value [c] = Done (t', None)
    /\ tableOk t'
    /\ data t' = Assoc.put key (enc, KV.next_counter c) (data t).
Proof. apply Set_accepts_live. Qed.
End InvariantMore.

(** ** Update, continued *)

Section UpdateMore.
Context {C : Codec} {L : CodecLaws C}.

Lemma acceptable_passes (fuel : nat) (order : list Name) (t : Table)
    (key : string) (h : Handler) :
  acceptable (handlerType h) = true ->
  Update fuel order t key (Some h) = updateLoop fuel fuel order t key h.
Proof.
  intros Hacc. unfold Update, acceptable in *.
  destruct (kind (handlerType h)); [|discriminate].
  apply andb_prop in Hacc as [Hacc Herr].
  apply andb_prop in Hacc as [Hin Hout].
  now rewrite Hin, Hout, Herr.
Qed.

(** With no other writer, [Update] needs one pass: on a table that
    satisfies the index invariant, when the document decodes, the modifier
    accepts it and the new value encodes, [Update] returns nil, the encoded
    new value is stored under the next counter and the invariant holds. *)
Theorem Update_applies_modifier (fuel : nat) (order : list Name) (t : Table)
    (key : string) (h : Handler) (raw enc : bytes) (c : Z)
    (doc value : Any) :
  tableOk t -> rangeOrder t order ->
  acceptable (handlerType h) = true ->
  Assoc.find key (data t) = Some (raw, c) ->
  (0 <= c < 65536)%Z ->
  decodeIn0 h raw = Ok doc ->
  Call h doc = (value, None) ->
  Marshal value = Ok enc ->
  exists t',
    Update (S fuel) order t key (Some h) = Done (t', None)
    /\ tableOk t'
    /\ data t' = Assoc.put key (enc, KV.next_counter c) (data t).
Proof.
  intros Hok Hord Hacc F Hc Hdoc Hcall Hm.
  destruct (Set_accepts_live fuel order t key value raw enc c
              Hok Hord F Hc Hm) as (t' & Hset & Hok' & Hd).
  exists t'. split; [|split; assumption].
  rewrite acceptable_passes by exact Hacc. simpl.
  unfold Get, KV.Get. rewrite F. simpl. rewrite Hdoc, Hcall. simpl.
  rewrite Hset. reflexivity.
Qed.
End UpdateMore.

Section UpdateErrors.
Context {C : Codec}.

(** When the read at the head of the loop fails (no document under the
    key, or one that does not decode into the modifier's argument),
    [Update] returns that error, whatever the modifier would have done,
    and nothing is written. *)
Theorem Update_returns_read_error (fuel : nat) (order : list Name)
    (t : Table) (key : string) (h : Handler) (err : error) :
  acceptable (handlerType h) = true ->
  snd (Get t key (decodeIn0 h)) = Err err ->
  Update (S fuel) order t key (Some h) = Done (t, Some err).
Proof.
  intros Hacc Hget. unfold Update, acceptable in *. simpl.
  destruct (kind (handlerType h)); [|discriminate].
  apply andb_prop in Hacc as [Hacc Herr].
  apply andb_prop in Hacc as [Hin Hout].
  rewrite Hin, Hout, Herr. simpl.
  destruct (Get t key (decodeIn0 h)) as [counter doc]. simpl in Hget.
  now rewrite Hget.
Qed.

(** Writing a value whose encoding yields, under every index, the values
    the stored document yields touches no index keyspace: [Set] returns nil
    with the indexes exactly as they were. *)
Theorem Set_same_values_keeps_indexes (fuel : nat) (order : list Name)
    (t : Table) (key : string) (value : Any) (enc : bytes) :
  Marshal value = Ok enc ->
  (forall name v, In name order ->
     (In v (indexValues name (current t key))
      <-> In v (indexValues name enc))) ->
  Set_ fuel order t key value []
  = Done ({| indexes := indexes t; data := KV.Set_ (data t) key enc |}, None).
Proof.
  intros Hm Hsame. unfold Set_. simpl. rewrite Hm.
  unfold updateIndex. fold (current t key).
  rewrite (diffIndexes_nothing order (current t key) enc Hsame).
  reflexivity.
Qed.
End UpdateErrors.

(** ** The range cursor, continued *)

Section ByteOrder.

Lemma compare_Lt_trans (a b c : bytes) :
  String.compare a b = Lt -> String.compare b c = Lt ->
  String.compare a c = Lt.
Proof.
  intros H1 H2.
  apply OrderedTypeEx.String_as_OT.cmp_lt in H1.
  apply OrderedTypeEx.String_as_OT.cmp_lt in H2.
  apply OrderedTypeEx.String_as_OT.cmp_lt.
  eapply OrderedTypeEx.String_as_OT.lt_trans; eassumption.
Qed.

Lemma compare_Gt_Lt (a b : bytes) :
  String.compare a b = Gt <-> String.compare b a = Lt.
Proof.
  rewrite (String.compare_antisym a b).
  destruct (String.compare b a); simpl; split; congruence.
Qed.

Lemma in_keys_put {A : Type} (k x : bytes) (a : A) (l : list (bytes * A)) :
  In x (Assoc.keys (Assoc.put k a l)) -> x = k \/ In x (Assoc.keys l).
Proof.
  induction l as [|[k' a'] r IH]; simpl.
  - intros [H|[]]. now left.
  - destruct (String.compare k k'); simpl.
    + intros [H|H]; [now left | now right; right].
    + intros [H|[H|H]]; [now left | now right; left | now right; right].
    + intros [H|H]; [now right; left|].
      destruct (IH H) as [Hk|Hr]; [now left | now right; right].
Qed.

Lemma in_keys_del {A : Type} (k x : bytes) (l : list (bytes * A)) :
  In x (Assoc.keys (Assoc.del k l)) -> In x (Assoc.keys l).
Proof.
  induction l as [|[k' a'] r IH]; simpl; [tauto|].
  destruct (String.eqb k k'); simpl; [now right; apply IH|].
  intros [H|H]; [now left | right; now apply IH].
Qed.

(** The engine's writes keep a keyspace in ascending byte order. *)
Lemma ascending_put (s : KV.store) (k v : bytes) (c : Z) :
  ascending s -> ascending (Assoc.put k (v, c) s).
Proof.
  unfold ascending. induction s as [|[k' a'] r IH]; simpl; intros Hs.
  - repeat constructor.
  - apply StronglySorted_inv in Hs. destruct Hs as [Hr Hall].
    destruct (String.compare k k') eqn:E; simpl.
    + apply String.compare_eq_iff in E. subst k'. now constructor.
    + constructor; [now constructor|].
      constructor; [exact E|].
      rewrite Forall_forall in *. intros x Hx.
      eapply compare_Lt_trans; [exact E | now apply Hall].
    + constructor; [now apply IH|].
      rewrite Forall_forall in *. intros x Hx.
      apply in_keys_put in Hx. destruct Hx as [->|Hx]; [|now apply Hall].
      now apply compare_Gt_Lt.
Qed.

Lemma ascending_del (s : KV.store) (k : bytes) :
  ascending s -> ascending (Assoc.del k s).
Proof.
  unfold ascending. induction s as [|[k' a'] r IH]; simpl; intros Hs.
  - constructor.
  - apply StronglySorted_inv in Hs. destruct Hs as [Hr Hall].
    destruct (String.eqb k k'); simpl; [now apply IH|].
    constructor; [now apply IH|].
    rewrite Forall_forall in *. intros x Hx.
    apply Hall. eapply in_keys_del; exact Hx.
Qed.

Lemma staysFalse_sorted {A : Type} (R : A -> A -> Prop) (f : A -> bool)
    (l : list A) :
  StronglySorted R l ->
  (forall x y, R x y -> f x = false -> f y = false) ->
  staysFalse f l.
Proof.
  intros Hs Hmono. induction Hs as [|x l Hl IH Hall]; simpl; [exact I|].
  split; [|exact IH]. intros Hx.
  rewrite Forall_forall in *. intros y Hy. eapply Hmono; eauto.
Qed.

Lemma StronglySorted_rev {A : Type} (R : A -> A -> Prop) (l : list A) :
  StronglySorted R l -> StronglySorted (fun x y => R y x) (rev l).
Proof.
  intros Hs. induction Hs as [|x l Hl IH Hall]; simpl; [constructor|].
  assert (forall l1 : list A,
            StronglySorted (fun x y => R y x) l1 ->
            Forall (fun y => R x y) l1 ->
            StronglySorted (fun x y => R y x) (l1 ++ [x])) as Happ.
  { induction l1 as [|z l1 IH1]; simpl; intros H1 H2.
    - repeat constructor.
    - apply StronglySorted_inv in H1. destruct H1 as [H1 H1'].
      inversion H2; subst.
      constructor; [now apply IH1|].
      apply Forall_app. split; [exact H1' | now repeat constructor]. }
  apply Happ; [exact IH|].
  rewrite Forall_forall in *. intros y Hy. apply Hall. now apply in_rev.
Qed.

Lemma StronglySorted_filter {A : Type} (R : A -> A -> Prop) (f : A -> bool)
    (l : list A) :
  StronglySorted R l -> StronglySorted R (filter f l).
Proof.
  intros Hs. induction Hs as [|x l Hl IH Hall]; simpl; [constructor|].
  destruct (f x); [|exact IH].
  constructor; [exact IH|].
  rewrite Forall_forall in *. intros y Hy.
  apply filter_In in Hy. now apply Hall.
Qed.

Lemma StronglySorted_entries {A : Type} (l : list (bytes * A)) :
  StronglySorted (fun a b : bytes => String.compare a b = Lt) (Assoc.keys l) ->
  StronglySorted (fun x y : bytes * A => String.compare (fst x) (fst y) = Lt) l.
Proof.
  unfold Assoc.keys. induction l as [|x l IH]; simpl; intros Hs;
    [constructor|].
  apply StronglySorted_inv in Hs. destruct Hs as [Hl Hall].
  constructor; [now apply IH|].
  rewrite Forall_forall in *. intros y Hy. apply Hall. now apply in_map.
Qed.

Lemma filter_all_false {A : Type} (f : A -> bool) (l : list A) :
  Forall (fun y => f y = false) l -> filter f l = [].
Proof.
  induction 1 as [|x l Hx Hl IH]; simpl; [reflexivity|]. now rewrite Hx.
Qed.

Lemma filter_all_true {A : Type} (f : A -> bool) (l : list A) :
  Forall (fun y => negb (f y) = false) l -> filter f l = l.
Proof.
  induction 1 as [|x l Hx Hl IH]; simpl; [reflexivity|].
  apply negb_false_iff in Hx. now rewrite Hx, IH.
Qed.

Lemma filter_and {A : Type} (f g : A -> bool) (l : list A) :
  filter g (filter f l) = filter (fun x => f x && g x) l.
Proof.
  induction l as [|x l IH]; simpl; [reflexivity|].
  destruct (f x); simpl; [destruct (g x); now rewrite IH | exact IH].
Qed.

(** On a list where [before] stays false once it is false, a seek leaves
    exactly the entries that are not before the sought key. *)
Lemma skip_is_filter (reverse : bool) (k : bytes)
    (l : list (bytes * (bytes * Z))) :
  staysFalse (fun e => KV.before reverse k (fst e)) l ->
  KV.skip reverse k l
  = filter (fun e => negb (KV.before reverse k (fst e))) l.
Proof.
  induction l as [|e l IH]; simpl; [reflexivity|].
  intros [Hhere Hrest].
  destruct (KV.before reverse k (fst e)) eqn:B; simpl.
  - now apply IH.
  - f_equal. symmetry. apply filter_all_true.
    eapply Forall_impl; [|exact (Hhere eq_refl)].
    intros y Hy. simpl in Hy. now rewrite Hy.
Qed.
End ByteOrder.

Section RangeMore.
Context {C : Codec}.

Lemma next_cases (r : Range) :
  next r
  = match KV.rest (it r) with
    | [] => (endOfRange, r)
    | e :: _ =>
        if stops r (fst e) then (endOfRange, r)
        else (rowOf e,
              {| it := KV.Next (it r); shouldReverse := shouldReverse r;
                 lower := lower r; upper := upper r;
                 lowerBytes := lowerBytes r; upperBytes := upperBytes r |})
    end.
Proof.
  unfold next, stops. destruct (KV.rest (it r)) as [|[k [v c]] rs];
    [reflexivity|]. simpl.
  destruct (negb (shouldReverse r) && negb (Any_eqb (upper r) MaxBounds)
            && isGt (String.compare k (upperBytes r))); simpl;
    [reflexivity|].
  destruct (shouldReverse r && negb (Any_eqb (lower r) MinBounds)
            && isLt (String.compare k (lowerBytes r))); reflexivity.
Qed.

(** The end of a range is final: a pull that returns an error returns
    [ErrEndOfRange], and from then on every pull returns the same
    end-of-range row. *)
Theorem end_of_range_is_final (r : Range) (e : error) :
  rowErr (fst (next r)) = Some e ->
  e = ErrEndOfRange
  /\ forall n, pulls n r = repeat endOfRange n.
Proof.
  rewrite next_cases.
  destruct (KV.rest (it r)) as [|x rs] eqn:Hrest.
  - simpl. intros H. inversion H. split; [reflexivity|].
    intros n. apply pulls_exhausted. rewrite next_cases, Hrest. reflexivity.
  - destruct (stops r (fst x)) eqn:S; simpl; [|discriminate].
    intros H. inversion H. split; [reflexivity|].
    intros n. apply pulls_exhausted. rewrite next_cases, Hrest, S.
    reflexivity.
Qed.

(** When the stop test stays true once it is true along what is left of
    the scan, the pulls hand out the entries before the first stop, then
    end. *)
Lemma pulls_until_stop (n : nat) :
  forall r : Range,
    staysFalse (fun e => negb (stops r (fst e))) (KV.rest (it r)) ->
    pulls (List.length
             (filter (fun e => negb (stops r (fst e))) (KV.rest (it r))) + n) r
    = map rowOf (filter (fun e => negb (stops r (fst e))) (KV.rest (it r)))
        ++ repeat endOfRange n.
Proof.
  intros [[rv sc rs] sr lo up lb ub]. simpl.
  induction rs as [|x rs IH]; simpl; intros Hst.
  - apply pulls_exhausted. now rewrite next_cases.
  - destruct Hst as [Hhere Hrest].
    match goal with
    | |- context [stops ?r0 (fst x)] => set (r := r0) in *
    end.
    destruct (stops r (fst x)) eqn:S; simpl.
    + rewrite (filter_all_false _ _ (Hhere eq_refl)). simpl.
      apply pulls_exhausted. rewrite next_cases. simpl. now rewrite S.
    + rewrite next_cases. simpl. fold r. rewrite S. simpl. f_equal.
      apply IH. exact Hrest.
Qed.

Lemma forward_before_mono (k : bytes) (x y : bytes * (bytes * Z)) :
  String.compare (fst x) (fst y) = Lt ->
  KV.before false k (fst x) = false -> KV.before false k (fst y) = false.
Proof.
  unfold KV.before. intros Hxy.
  destruct (String.compare (fst y) k) eqn:Hy; simpl; try reflexivity.
  rewrite (compare_Lt_trans _ _ _ Hxy Hy). simpl. discriminate.
Qed.

Lemma reverse_before_mono (k : bytes) (x y : bytes * (bytes * Z)) :
  String.compare (fst y) (fst x) = Lt ->
  KV.before true k (fst x) = false -> KV.before true k (fst y) = false.
Proof.
  unfold KV.before. intros Hyx.
  destruct (String.compare (fst y) k) eqn:Hy; simpl; try reflexivity.
  apply compare_Gt_Lt in Hy.
  pose proof (compare_Lt_trans _ _ _ Hy Hyx) as Hx.
  apply compare_Gt_Lt in Hx. rewrite Hx. discriminate.
Qed.

Lemma forward_stop_mono (r : Range) (x y : bytes * (bytes * Z)) :
  shouldReverse r = false ->
  String.compare (fst x) (fst y) = Lt ->
  negb (stops r (fst x)) = false -> negb (stops r (fst y)) = false.
Proof.
  unfold stops. intros -> Hxy. simpl. rewrite !orb_false_r.
  destruct (Any_eqb (upper r) MaxBounds); simpl; [discriminate|].
  destruct (String.compare (fst x) (upperBytes r)) eqn:Hx; simpl;
    try discriminate.
  intros _. apply compare_Gt_Lt in Hx.
  pose proof (compare_Lt_trans _ _ _ Hx Hxy) as Hy.
  apply compare_Gt_Lt in Hy. now rewrite Hy.
Qed.

Lemma reverse_stop_mono (r : Range) (x y : bytes * (bytes * Z)) :
  shouldReverse r = true ->
  String.compare (fst y) (fst x) = Lt ->
  negb (stops r (fst x)) = false -> negb (stops r (fst y)) = false.
Proof.
  unfold stops. intros -> Hyx. simpl.
  destruct (Any_eqb (lower r) MinBounds); simpl; [discriminate|].
  destruct (String.compare (fst x) (lowerBytes r)) eqn:Hx; simpl;
    try discriminate.
  intros _. now rewrite (compare_Lt_trans _ _ _ Hyx Hx).
Qed.

(** What a range over an ascending keyspace hands out, in both
    directions. *)
Lemma Between_selects (t : Table) (lo hi : Any) (reverse : list bool)
    (n : nat) :
  ascending (data t) ->
  pulls (List.length (selected t lo hi) + n) (Between t lo hi reverse)
  = map rowOf (if hd false reverse then rev (selected t lo hi)
               else selected t lo hi)
      ++ repeat endOfRange n.
Proof.
  intros Hasc. apply StronglySorted_entries in Hasc.
  pose proof (StronglySorted_rev _ _ Hasc) as Hdesc.
  set (R := Between t lo hi reverse).
  assert (shouldReverse R = hd false reverse) as Hsr
    by (unfold R, Between; now destruct reverse).
  destruct (hd false reverse) eqn:Hrev.
  - (* descending scan *)
    assert (KV.rest (it R)
            = filter (fun e => belowUpper hi (fst e)) (rev (data t))) as Hrest.
    { unfold R, Between.
      replace (match reverse with b :: _ => b | [] => false end) with true
        by (now destruct reverse).
      simpl. unfold belowUpper.
      destruct (Any_eqb hi MaxBounds); simpl.
      - now rewrite filter_true.
      - rewrite skip_is_filter.
        + apply filter_ext. intros e. unfold KV.before.
          now destruct (String.compare (fst e) (valueToBytes hi)).
        + eapply staysFalse_sorted; [exact Hdesc|].
          intros x y. apply reverse_before_mono. }
    assert (filter (fun e => negb (stops R (fst e))) (KV.rest (it R))
            = rev (selected t lo hi)) as Hsel.
    { rewrite Hrest, filter_and. unfold selected. rewrite <- filter_rev.
      apply filter_ext. intros e. unfold stops. rewrite Hsr.
      unfold R, Between, aboveLower. simpl.
      destruct (belowUpper hi (fst e)), (Any_eqb lo MinBounds),
        (isLt (String.compare (fst e) (valueToBytes lo))); reflexivity. }
    replace (List.length (selected t lo hi))
      with (List.length (rev (selected t lo hi))) by apply length_rev.
    rewrite <- Hsel. apply pulls_until_stop.
    rewrite Hrest. eapply staysFalse_sorted.
    + apply StronglySorted_filter. exact Hdesc.
    + intros x y. apply reverse_stop_mono. exact Hsr.
  - (* ascending scan *)
    assert (KV.rest (it R)
            = filter (fun e => aboveLower lo (fst e)) (data t)) as Hrest.
    { unfold R, Between.
      replace (match reverse with b :: _ => b | [] => false end) with false
        by (now destruct reverse).
      simpl. unfold aboveLower.
      destruct (Any_eqb lo MinBounds); simpl.
      - now rewrite filter_true.
      - rewrite skip_is_filter.
        + apply filter_ext. intros e. unfold KV.before.
          now destruct (String.compare (fst e) (valueToBytes lo)).
        + eapply staysFalse_sorted; [exact Hasc|].
          intros x y. apply forward_before_mono. }
    assert (filter (fun e => negb (stops R (fst e))) (KV.rest (it R))
            = selected t lo hi) as Hsel.
    { rewrite Hrest, filter_and. unfold selected.
      apply filter_ext. intros e. unfold stops. rewrite Hsr.
      unfold R, Between, belowUpper. simpl. rewrite orb_false_r.
      destruct (aboveLower lo (fst e)), (Any_eqb hi MaxBounds),
        (isGt (String.compare (fst e) (valueToBytes hi))); reflexivity. }
    rewrite <- Hsel. apply pulls_until_stop.
    rewrite Hrest. eapply staysFalse_sorted.
    + apply StronglySorted_filter. exact Hasc.
    + intros x y. apply forward_stop_mono. exact Hsr.
Qed.

(** Over a keyspace in ascending byte order, [Between] hands out exactly
    the stored entries whose key is at or above the lower bound and at or
    below the upper bound (a sentinel bound excludes nothing), each with
    its value and counter, in ascending key order or, reversed, in
    descending order; every later pull returns [ErrEndOfRange]. *)
Theorem Between_yields_entries_within_bounds
    (t : Table) (lo hi : Any) (reverse : list bool) (n : nat) :
  ascending (data t) ->
  pulls (List.length (selected t lo hi) + n) (Between t lo hi reverse)
  = map rowOf (if hd false reverse then rev (selected t lo hi)
               else selected t lo hi)
      ++ repeat endOfRange n.
Proof. apply Between_selects. Qed.
End RangeMore.

Section RangeAfterWrites.
Context {C : Codec} {L : CodecLaws C}.

Lemma step_keeps_ascending (fuel : nat) (t t' : Table) (o : op)
    (err : option error) :
  ascending (data t) -> step fuel t o = Done (t', err) ->
  ascending (data t').
Proof.
  intros Hasc. destruct o as [key value counter order | key counter order];
    simpl; intros H.
  - apply Set_outcome in H.
    destruct H as [[_ ->]|(_ & enc & _ & Hd & _)]; [exact Hasc|].
    rewrite Hd. now apply ascending_put.
  - apply Delete_outcome in H.
    destruct H as [[_ ->]|[(_ & _ & ->)|(_ & Hd & _)]];
      [exact Hasc | exact Hasc |].
    rewrite Hd. now apply ascending_del.
Qed.

Lemma run_keeps_ascending (fuel : nat) (ops : list op) :
  forall (t t' : Table) (errs : list (option error)),
    ascending (data t) -> run fuel ops t = Done (t', errs) ->
    ascending (data t').
Proof.
  induction ops as [|o ops IH]; intros t t' errs Hasc.
  - simpl. intros H; inversion H; subst. exact Hasc.
  - change (run fuel (o :: ops) t)
      with (r <- step fuel t o ;;
            r' <- run fuel ops (fst r) ;;
            Done (fst r', snd r :: snd r')).
    destruct (step fuel t o) as [[t1 e1]| |] eqn:S1; simpl; try discriminate.
    destruct (run fuel ops t1) as [[t2 e2]| |] eqn:R; simpl; try discriminate.
    intros H; inversion H; subst.
    eapply IH; [|exact R]. eapply step_keeps_ascending; eauto.
Qed.

(** Writes and scans compose: after any sequence of [Set] and [Delete]
    calls on a table that satisfies the index invariant and whose keyspace
    is in ascending order (a new table is such), a range over the final
    table hands out exactly its documents within the bounds, in key order
    or in reverse, then [ErrEndOfRange]. *)
Theorem range_after_writes (fuel : nat) (ops : list op) (t0 : Table) :
  tableOk t0 ->
  ascending (data t0) ->
  Forall (fun o => rangeOrder t0 (opOrder o)) ops ->
  exists t errs,
    run (S fuel) ops t0 = Done (t, errs)
    /\ forall (lo hi : Any) (reverse : list bool) (n : nat),
         pulls (List.length (selected t lo hi) + n) (Between t lo hi reverse)
         = map rowOf (if hd false reverse then rev (selected t lo hi)
                      else selected t lo hi)
             ++ repeat endOfRange n.
Proof.
  intros Hok Hasc Hall.
  destruct (run_preserves fuel ops t0 Hok Hall) as (t & errs & Hrun & _ & _).
  exists t, errs. split; [exact Hrun|].
  intros lo hi reverse n. apply Between_selects.
  eapply run_keeps_ascending; eauto.
Qed.
End RangeAfterWrites.

(** ** Creating tables *)

Section Registry.
Variable newKV : Name -> result KV.store.
Variable writeConfig : Config -> option error.

Lemma configured_existsb (d : DB) (name : string) :
  existsb (fun table => String.eqb (TableName table) name) (Tables (config d))
  = true <-> In name (configured d).
Proof.
  unfold configured. rewrite existsb_exists, in_map_iff. split.
  - intros (x & Hx & E). apply String.eqb_eq in E. now exists x.
  - intros (x & E & Hx). exists x. split; [exact Hx|].
    subst. apply String.eqb_refl.
Qed.

(** Every way [NewTable] can return. *)
Lemma NewTable_cases (d : DB) (name : string) (r : DB * option dbError) :
  NewTable newKV writeConfig d name = r ->
  (r = (d, Some ErrBadIdentifier)
   /\ (name = EmptyString \/ (125 < String.length name)%nat))
  \/ (r = (d, Some ErrAlreadyExists)
      /\ name <> EmptyString /\ (String.length name <= 125)%nat
      /\ In name (configured d))
  \/ (name <> EmptyString /\ (String.length name <= 125)%nat
      /\ ~ In name (configured d)
      /\ ((exists err, newKV name = Err err /\ r = (d, Some (ErrPassed err)))
          \/ exists kv,
               newKV name = Ok kv
               /\ configured (fst r) = configured d ++ [name]
               /\ ((exists err, snd r = Some (ErrPassed err)
                                /\ tables (fst r) = tables d)
                   \/ (snd r = None
                       /\ tables (fst r)
                          = Assoc.put name {| indexes := []; data := kv |}
                              (tables d))))).
Proof.
  intros <-. unfold NewTable.
  destruct (String.eqb name EmptyString) eqn:E0; simpl.
  { left. split; [reflexivity|]. left. now apply String.eqb_eq. }
  apply String.eqb_neq in E0.
  destruct (125 <? String.length name)%nat eqn:E1.
  { left. split; [reflexivity|]. right. now apply Nat.ltb_lt. }
  apply Nat.ltb_ge in E1.
  destruct (existsb _ (Tables (config d))) eqn:E2.
  { right. left. apply configured_existsb in E2. tauto. }
  assert (~ In name (configured d)) as Hnew
    by (intros Hin; apply configured_existsb in Hin; congruence).
  right. right. repeat (split; [assumption|]).
  destruct (newKV name) as [kv|err].
  2:{ left. now exists err. }
  right. exists kv. split; [reflexivity|].
  destruct (writeConfig _) as [err|]; simpl.
  - split; [unfold configured; simpl; now rewrite map_app|].
    left. now exists err.
  - split; [unfold configured; simpl; now rewrite map_app|].
    right. now split.
Qed.

(** Whatever the disk answers, [NewTable] keeps the registry in good
    order: no name is configured twice, every registered table is
    configured, every configured name is non-empty and at most 125 bytes
    long. *)
Theorem NewTable_keeps_registry (d : DB) (name : string) :
  registryOk d -> registryOk (fst (NewTable newKV writeConfig d name)).
Proof.
  intros (Hnd & Hreg & Hgood).
  assert (registryOk d) as Hd by (unfold registryOk; tauto).
  destruct (NewTable_cases d name _ eq_refl)
    as [[-> _]|[[-> _]|(Hne & Hlen & Hnew & Hrest)]];
    [exact Hd | exact Hd |].
  destruct Hrest as [(err & _ & ->)|(kv & _ & Hconf & Htab)];
    [exact Hd|].
  unfold registryOk. rewrite Hconf. split; [|split].
  - apply NoDup_app; repeat split; try assumption.
    + constructor; [simpl; tauto | constructor].
    + intros x Hx [<-|[]]. contradiction.
  - intros n t Hf. apply in_or_app.
    destruct Htab as [(err & _ & Ht)|(_ & Ht)]; rewrite Ht in Hf.
    + left. eapply Hreg; exact Hf.
    + destruct (string_dec n name) as [->|Hn]; [right; now left|].
      rewrite AssocFacts.find_put_ne in Hf by exact Hn.
      left. eapply Hreg; exact Hf.
  - intros n Hn. apply in_app_or in Hn.
    destruct Hn as [Hn|[<-|[]]]; [now apply Hgood | now split].
Qed.

(** When [NewTable] returns nil, the name was a good identifier that was
    not configured, the name is now the last configured one, the table
    registered under it has no index and the keyspace [newKV] returned,
    every other name maps to what it mapped to, and asking for the same
    name again is refused with [ErrAlreadyExists] whatever the disk says. *)
Theorem NewTable_registers (d d' : DB) (name : string) :
  NewTable newKV writeConfig d name = (d', None) ->
  (name <> EmptyString /\ (String.length name <= 125)%nat
   /\ ~ In name (configured d))
  /\ configured d' = configured d ++ [name]
  /\ (exists kv, newKV name = Ok kv
                 /\ Assoc.find name (tables d')
                    = Some {| indexes := []; data := kv |})
  /\ (forall n, n <> name ->
                Assoc.find n (tables d') = Assoc.find n (tables d))
  /\ forall newKV' writeConfig',
       NewTable newKV' writeConfig' d' name = (d', Some ErrAlreadyExists).
Proof.
  intros H.
  destruct (NewTable_cases d name _ H)
    as [[Hr _]|[[Hr _]|(Hne & Hlen & Hnew & Hrest)]];
    simpl in *; try congruence.
  destruct Hrest as [(err & _ & Hr)|(kv & Hkv & Hconf & Htab)];
    [congruence|].
  destruct Htab as [(err & Hr & _)|(_ & Ht)]; [congruence|].
  split; [tauto|]. split; [exact Hconf|]. split; [|split].
  - exists kv. split; [exact Hkv|]. rewrite Ht.
    apply AssocFacts.find_put_eq.
  - intros n Hn. rewrite Ht. now apply AssocFacts.find_put_ne.
  - intros newKV' writeConfig'. unfold NewTable.
    apply String.eqb_neq in Hne. rewrite Hne.
    apply Nat.ltb_ge in Hlen. rewrite Hlen. simpl.
    assert (In name (configured d')) as Hin
      by (rewrite Hconf; apply in_or_app; right; now left).
    apply configured_existsb in Hin. now rewrite Hin.
Qed.

(** Every way [NewTable] can fail.  A bad identifier, a name already
    configured and a failure of [newKV] leave the database as it was.  The
    one exception is a failure of [writeConfig] after [newKV] succeeded:
    the name has been appended to the configured names and stays there,
    the registered tables are the ones there were, and (the registry being
    in good order) no table is registered under the name. *)
Theorem NewTable_failure (d d' : DB) (name : string) (e : dbError) :
  registryOk d ->
  NewTable newKV writeConfig d name = (d', Some e) ->
  (e = ErrBadIdentifier /\ d' = d
   /\ (name = EmptyString \/ (125 < String.length name)%nat))
  \/ (e = ErrAlreadyExists /\ d' = d
      /\ name <> EmptyString /\ (String.length name <= 125)%nat
      /\ In name (configured d))
  \/ (name <> EmptyString /\ (String.length name <= 125)%nat
      /\ ~ In name (configured d)
      /\ ((exists err, newKV name = Err err /\ e = ErrPassed err /\ d' = d)
          \/ (exists kv err,
                newKV name = Ok kv
                /\ writeConfig (config d') = Some err
                /\ e = ErrPassed err
                /\ d' = {| config :=
                             {| Tables := Tables (config d)
                                          ++ [{| TableName := name |}] |};
                           tables := tables d |}
                /\ configured d' = configured d ++ [name]
                /\ Assoc.find name (tables d') = None))).
Proof.
  intros (_ & Hreg & _). unfold NewTable.
  destruct (String.eqb name EmptyString) eqn:E0; simpl.
  { intros H; inversion H; subst. left.
    repeat split. left. now apply String.eqb_eq. }
  apply String.eqb_neq in E0.
  destruct (125 <? String.length name)%nat eqn:E1.
  { intros H; inversion H; subst. left.
    repeat split. right. now apply Nat.ltb_lt. }
  apply Nat.ltb_ge in E1.
  destruct (existsb _ (Tables (config d))) eqn:E2.
  { intros H; inversion H; subst. right. left.
    apply configured_existsb in E2. now repeat split. }
  assert (~ In name (configured d)) as Hnew
    by (intros Hin; apply configured_existsb in Hin; congruence).
  assert (Assoc.find name (tables d) = None) as Hfree.
  { destruct (Assoc.find name (tables d)) as [t0|] eqn:F; [|reflexivity].
    exfalso. apply Hnew. eapply Hreg. exact F. }
  intros H. right. right. repeat (split; [assumption|]).
  destruct (newKV name) as [kv|err0].
  2:{ inversion H; subst. left. now exists err0. }
  destruct (writeConfig _) as [err|] eqn:W; simpl in H; [|discriminate].
  inversion H; subst. right. exists kv, err.
  split; [reflexivity|]. split; [exact W|]. split; [reflexivity|].
  split; [reflexivity|].
  split; [unfold configured; simpl; now rewrite map_app | exact Hfree].
Qed.
End Registry.

(** ** A write undone *)

Section WriteUndone.
Context {C : Codec} {L : CodecLaws C}.

Lemma Set_unconditional (fuel : nat) (order : list Name) (t t' : Table)
    (key : string) (value : Any) (enc : bytes) (err : option error) :
  Marshal value = Ok enc ->
  Set_ fuel order t key value [] = Done (t', err) -> err = None.
Proof.
  intros Hm. unfold Set_. simpl. rewrite Hm.
  destruct (updateIndex fuel order _ key _ enc) as [[t1 e1]| |];
    simpl; try discriminate.
  now inversion 1.
Qed.

Lemma Delete_unconditional (fuel : nat) (order : list Name) (t t' : Table)
    (key : string) (err : option error) :
  Delete fuel order t key [] = Done (t', err) -> err = None.
Proof.
  unfold Delete. destruct (KV.Value (KV.Get (data t) key)); simpl.
  - destruct (updateIndex fuel order _ key _ _) as [[t1 e1]| |];
      simpl; try discriminate.
    now inversion 1.
  - now inversion 1.
Qed.

(** Writing a document under a key that holds none and deleting it again
    undoes the write: both calls return nil, every key holds the document
    it held, and every bucket of every index lists the keys it listed. *)
Theorem Set_then_Delete_restores (fuel : nat) (order1 order2 : list Name)
    (t : Table) (key : string) (value : Any) (enc : bytes) :
  tableOk t -> rangeOrder t order1 -> rangeOrder t order2 ->
  Assoc.find key (data t) = None ->
  Marshal value = Ok enc ->
  exists t1 t2,
    Set_ (S fuel) order1 t key value [] = Done (t1, None)
    /\ Delete (S fuel) order2 t1 key [] = Done (t2, None)
    /\ (forall k, current t2 k = current t k)
    /\ forall name i2 k v,
         Index t2 name = Some i2 ->
         exists i,
           Index t name = Some i
           /\ (In k (bucket i2 v) <-> In k (bucket i v)).
Proof.
  intros Hok Hord1 Hord2 F Hm.
  destruct (Set_preserves fuel order1 t key value [] Hok Hord1)
    as (t1 & e1 & Hset & Hok1 & Hk1).
  pose proof (Set_unconditional _ _ _ _ _ _ _ _ Hm Hset) as ->.
  assert (rangeOrder t1 order2) as Hord2'
    by (unfold rangeOrder; now rewrite Hk1).
  destruct (Delete_preserves fuel order2 t1 key [] Hok1 Hord2')
    as (t2 & e2 & Hdel & Hok2 & Hk2).
  pose proof (Delete_unconditional _ _ _ _ _ _ Hdel) as ->.
  exists t1, t2. split; [exact Hset|]. split; [exact Hdel|].
  assert (forall k, current t2 k = current t k) as Hcur.
  { intros k. unfold current, KV.Get.
    pose proof (Set_outcome _ _ _ _ _ _ _ _ Hset) as Hs.
    destruct Hs as [[Hne _]|(_ & enc' & _ & Hd1 & _)]; [congruence|].
    pose proof (Delete_outcome _ _ _ _ _ _ _ Hdel) as Hd.
    destruct Hd as [[Hne _]|[(_ & F1 & _)|(_ & Hd2 & _)]].
    - congruence.
    - rewrite Hd1, AssocFacts.find_put_eq in F1. discriminate.
    - rewrite Hd2. destruct (string_dec k key) as [->|Hne].
      + now rewrite AssocFacts.find_del_eq, F.
      + rewrite AssocFacts.find_del_ne by exact Hne.
        now rewrite Hd1, AssocFacts.find_put_ne. }
  split; [exact Hcur|].
  intros name i2 k v Hi2.
  destruct (AssocFacts.in_keys_find name (indexes t)) as [i Hi].
  { rewrite <- Hk1, <- Hk2.
    eapply AssocFacts.find_some_in_keys. exact Hi2. }
  exists i. split; [exact Hi|].
  rewrite (ok_exact t2 Hok2 name i2 k v Hi2).
  rewrite (ok_exact t Hok name i k v Hi).
  now rewrite Hcur.
Qed.
End WriteUndone.

(** ** The further properties on the sample data *)

Lemma held_ok : tableOk (C := Sample.codec) Sample.held.
Proof.
  assert (tableOk (C := Sample.codec) (newTable ["chars"])) as Hok.
  { apply (@newTable_ok Sample.codec).
    constructor; [simpl; tauto | constructor]. }
  destruct (@run_preserves Sample.codec Sample_laws 0
              [@OpSet Sample.codec "k" (Sample.VString "lo") [] ["chars"]]
              (newTable ["chars"]) Hok) as (t & errs & Hrun & _ & Ht).
  { repeat constructor. }
  rewrite held_is_reached in Hrun. inversion Hrun; subst. exact Ht.
Qed.

Lemma held_order : rangeOrder Sample.held ["chars"].
Proof. apply Permutation_refl. Qed.

Lemma letters_ascending : ascending (data Sample.letters).
Proof.
  unfold ascending. simpl. repeat constructor.
Qed.

Lemma empty_decodes : decodes (C := Sample.codec) [].
Proof. intros v raw c H. discriminate H. Qed.

Lemma diffIndexes_same_values_witness :
  @diffIndexes Sample.codec ["chars"] "ab" "ba" = ([], []).
Proof.
  apply (@diffIndexes_same_values Sample.codec ["chars"] "ab" "ba").
  intros name v [<-|[]]. simpl. tauto.
Defined.

Lemma updateIndex_keeps_documents_witness :
  @updateIndex Sample.codec 1 ["chars"] (newTable ["chars"]) "k"
    EmptyString "lo"
  = Done ({| indexes := indexes Sample.held; data := [] |}, None)
  /\ data {| indexes := indexes Sample.held; data := [] |}
     = data (newTable ["chars"]).
Proof.
  assert (@updateIndex Sample.codec 1 ["chars"] (newTable ["chars"]) "k"
            EmptyString "lo"
          = Done ({| indexes := indexes Sample.held; data := [] |}, None))
    as H by reflexivity.
  split; [exact H |].
  exact (proj1 (@updateIndex_keeps_documents Sample.codec 1 ["chars"]
                  _ _ "k" EmptyString "lo" None H)).
Defined.

Lemma Get_after_Set_witness :
  @Set_ Sample.codec 1 [] Sample.plain "k" (Sample.VString "new") []
  = Done ({| indexes := []; data := [("k", ("new", 2%Z))] |}, None)
  /\ exists enc,
       Sample.marshal (Sample.VString "new") = Ok enc
       /\ Get {| indexes := []; data := [("k", ("new", 2%Z))] |} "k"
            Fixtures.asString
          = (2%Z, Fixtures.asString enc).
Proof.
  assert (@Set_ Sample.codec 1 [] Sample.plain "k" (Sample.VString "new") []
          = Done ({| indexes := []; data := [("k", ("new", 2%Z))] |}, None))
    as H by reflexivity.
  split; [exact H |].
  exact (@Get_after_Set Sample.codec 1 [] Sample.plain _ "k"
           (Sample.VString "new") [] string Fixtures.asString H).
Defined.

Lemma Set_leaves_other_keys_witness :
  @Set_ Sample.codec 1 [] Sample.plain "j" (Sample.VString "x") []
  = Done ({| indexes := [];
             data := [("j", ("x", 1%Z)); ("k", ("old", 1%Z))] |}, None)
  /\ "k" <> "j"
  /\ Get {| indexes := [];
            data := [("j", ("x", 1%Z)); ("k", ("old", 1%Z))] |} "k"
       Fixtures.asString
     = Get Sample.plain "k" Fixtures.asString.
Proof.
  assert (@Set_ Sample.codec 1 [] Sample.plain "j" (Sample.VString "x") []
          = Done ({| indexes := [];
                     data := [("j", ("x", 1%Z)); ("k", ("old", 1%Z))] |},
                  None)) as H by reflexivity.
  assert ("k" <> "j") as Hne by discriminate.
  split; [exact H | split; [exact Hne |]].
  exact (@Set_leaves_other_keys Sample.codec 1 [] Sample.plain _ "j" "k"
           (Sample.VString "x") [] None string Fixtures.asString H Hne).
Defined.

Lemma Get_after_Delete_witness :
  @Delete Sample.codec 1 [] Sample.plain "k" []
  = Done ({| indexes := []; data := [] |}, None)
  /\ Get {| indexes := []; data := [] |} "k" Fixtures.asString
     = (0%Z, Err ErrNotFound).
Proof.
  assert (@Delete Sample.codec 1 [] Sample.plain "k" []
          = Done ({| indexes := []; data := [] |}, None)) as H by reflexivity.
  split; [exact H |].
  exact (proj1 (@Get_after_Delete Sample.codec 1 [] Sample.plain _ "k" []
                  None string Fixtures.asString H) eq_refl).
Defined.

Lemma Set_same_values_keeps_indexes_witness :
  Sample.marshal (Sample.VString "ol") = Ok "ol"
  /\ @Set_ Sample.codec 1 ["chars"] Sample.held "k" (Sample.VString "ol") []
     = Done ({| indexes := indexes Sample.held;
                data := [("k", ("ol", 2%Z))] |}, None).
Proof.
  split; [reflexivity |].
  apply (@Set_same_values_keeps_indexes Sample.codec 1 ["chars"]
           Sample.held "k" (Sample.VString "ol") "ol" eq_refl).
  intros name v [<-|[]]. simpl. tauto.
Defined.

Lemma addToIndex_appends_once_witness :
  decodes (C := Sample.codec) []
  /\ exists i',
       @addToIndex Sample.codec 1 [] "a" "k" = Done (i', None)
       /\ @bucket Sample.codec i' "a" = ["k"]
       /\ @addToIndex Sample.codec 1 i' "a" "k" = Done (i', None).
Proof.
  split; [exact empty_decodes |].
  destruct (@addToIndex_appends_once Sample.codec Sample_laws 0 [] "a" "k"
              empty_decodes) as (i' & H1 & H2 & _ & _ & H5).
  exists i'. split; [exact H1 | split; [exact H2 | exact H5]].
Defined.

Lemma deleteFromIndex_missing_key_witness :
  decodes (C := Sample.codec) []
  /\ ~ In "k" (@bucket Sample.codec [] "a")
  /\ @deleteFromIndex Sample.codec 1 [] "a" "k" = Done ([], None).
Proof.
  assert (~ In "k" (@bucket Sample.codec [] "a")) as Hnotin
    by (simpl; tauto).
  split; [exact empty_decodes | split; [exact Hnotin |]].
  exact (@deleteFromIndex_missing_key Sample.codec 0 [] "a" "k"
           empty_decodes Hnotin).
Defined.

Lemma addToIndex_then_deleteFromIndex_witness :
  decodes (C := Sample.codec) []
  /\ ~ In "k" (@bucket Sample.codec [] "a")
  /\ exists i1 i2,
       @addToIndex Sample.codec 1 [] "a" "k" = Done (i1, None)
       /\ @deleteFromIndex Sample.codec 1 i1 "a" "k" = Done (i2, None)
       /\ (forall v, @bucket Sample.codec i2 v = @bucket Sample.codec [] v)
       /\ (Assoc.find "a" (@nil (bytes * (bytes * Z))) = None ->
           Assoc.find "a" i2 = None).
Proof.
  assert (~ In "k" (@bucket Sample.codec [] "a")) as Hnotin
    by (simpl; tauto).
  split; [exact empty_decodes | split; [exact Hnotin |]].
  exact (@addToIndex_then_deleteFromIndex Sample.codec Sample_laws 0 [] "a"
           "k" empty_decodes Hnotin).
Defined.

Lemma corrupt_bucket_is_reported_witness :
  Assoc.find "a" Fixtures.corrupt = Some ("2", 1%Z)
  /\ Sample.decodeKeys "2" = Err (ErrForeign "msgpack: invalid code")
  /\ @deleteFromIndex Sample.codec 1 Fixtures.corrupt "a" "k"
     = Done (Fixtures.corrupt, Some (ErrForeign "msgpack: invalid code")).
Proof.
  split; [reflexivity | split; [reflexivity |]].
  exact (proj1 (@corrupt_bucket_is_reported Sample.codec 0 Fixtures.corrupt
                  "a" "2" 1%Z "k" (ErrForeign "msgpack: invalid code")
                  eq_refl eq_refl)).
Defined.

Lemma no_empty_bucket_after_writes_witness :
  noEmptyBuckets (C := Sample.codec) (newTable ["chars"])
  /\ exists t errs,
       @run Sample.codec 1 Sample.scenario (newTable ["chars"])
       = Done (t, errs)
       /\ noEmptyBuckets (C := Sample.codec) t.
Proof.
  assert (tableOk (C := Sample.codec) (newTable ["chars"])) as Hok.
  { apply (@newTable_ok Sample.codec).
    constructor; [simpl; tauto | constructor]. }
  assert (noEmptyBuckets (C := Sample.codec) (newTable ["chars"])) as Hne.
  { intros name i Hi v raw c Hf. unfold Index in Hi. simpl in Hi.
    destruct (String.eqb name "chars"); [|discriminate].
    inversion Hi; subst. discriminate Hf. }
  assert (Forall (fun o => rangeOrder (newTable ["chars"])
                             (@opOrder Sample.codec o))
            Sample.scenario) as Hall by (repeat constructor).
  split; [exact Hne |].
  exact (@no_empty_bucket_after_writes Sample.codec Sample_laws 0
           Sample.scenario (newTable ["chars"]) Hok Hne Hall).
Defined.

Lemma Delete_strips_key_witness :
  rangeOrder Sample.held ["chars"]
  /\ exists t' err,
       @Delete Sample.codec 1 ["chars"] Sample.held "k" [] = Done (t', err)
       /\ (err = None ->
           tableOk (C := Sample.codec) t'
           /\ forall name i v,
                Index t' name = Some i ->
                ~ In "k" (@bucket Sample.codec i v)).
Proof.
  split; [exact held_order |].
  exact (@Delete_strips_key Sample.codec Sample_laws 0 ["chars"] Sample.held
           "k" [] held_ok held_order).
Defined.

Lemma Set_with_live_counter_witness :
  Assoc.find "k" (data Sample.held) = Some ("lo", 1%Z)
  /\ (0 <= 1 < 65536)%Z
  /\ Sample.marshal (Sample.VString "go") = Ok "go"
  /\ exists t',
       @Set_ Sample.codec 1 ["chars"] Sample.held "k" (Sample.VString "go")
         [1%Z] = Done (t', None)
       /\ tableOk (C := Sample.codec) t'
       /\ data t' = [("k", ("go", 2%Z))].
Proof.
  assert (0 <= 1 < 65536)%Z as Hc by lia.
  split; [reflexivity | split; [exact Hc | split; [reflexivity |]]].
  exact (@Set_with_live_counter Sample.codec Sample_laws 0 ["chars"]
           Sample.held "k" (Sample.VString "go") "lo" "go" 1%Z
           held_ok held_order eq_refl Hc eq_refl).
Defined.

Lemma Update_applies_modifier_witness :
  acceptable (handlerType Fixtures.swapping) = true
  /\ decodeIn0 Fixtures.swapping "lo" = Ok (Sample.VString "lo")
  /\ Call Fixtures.swapping (Sample.VString "lo")
     = (Sample.VString "ol", None)
  /\ exists t',
       @Update Sample.codec 1 ["chars"] Sample.held "k"
         (Some Fixtures.swapping) = Done (t', None)
       /\ tableOk (C := Sample.codec) t'
       /\ data t' = [("k", ("ol", 2%Z))].
Proof.
  assert (0 <= 1 < 65536)%Z as Hc by lia.
  repeat (split; [reflexivity |]).
  exact (@Update_applies_modifier Sample.codec Sample_laws 0 ["chars"]
           Sample.held "k" Fixtures.swapping "lo" "ol" 1%Z
           (Sample.VString "lo") (Sample.VString "ol")
           held_ok held_order eq_refl eq_refl Hc eq_refl eq_refl eq_refl).
Defined.

Lemma Update_returns_read_error_witness :
  acceptable (handlerType Sample.refusing) = true
  /\ snd (Get (newTable []) "k" (decodeIn0 Sample.refusing))
     = Err ErrNotFound
  /\ @Update Sample.codec 1 [] (newTable []) "k" (Some Sample.refusing)
     = Done (newTable [], Some ErrNotFound).
Proof.
  repeat (split; [reflexivity |]).
  exact (@Update_returns_read_error Sample.codec 0 [] (newTable []) "k"
           Sample.refusing ErrNotFound eq_refl eq_refl).
Defined.

Lemma Update_rejects_wrong_shape_witness :
  acceptable (handlerType Sample.notAFunction) = false
  /\ exists msg : string,
       forall (fuel : nat) (order : list Name) (t : Table) (key : string),
         @Update Sample.codec fuel order t key (Some Sample.notAFunction)
         = Done (t, Some (ErrNew msg)).
Proof.
  split; [reflexivity |].
  exact (@Update_rejects_wrong_shape Sample.codec Sample.notAFunction
           eq_refl).
Defined.

Lemma Delete_stale_counter_witness :
  Assoc.find "k" (data Sample.plain) = Some ("old", 1%Z)
  /\ 7%Z <> 1%Z
  /\ @Delete Sample.codec 1 [] Sample.plain "k" [7%Z]
     = Done (Sample.plain, Some ErrCounterChanged).
Proof.
  assert (7%Z <> 1%Z) as Hne by discriminate.
  split; [reflexivity | split; [exact Hne |]].
  exact (@Delete_stale_counter Sample.codec 1 [] Sample.plain "k" "old"
           1%Z 7%Z [] eq_refl Hne).
Defined.

Lemma Set_stale_counter_witness :
  Assoc.find "k" (data Sample.plain) = Some ("old", 1%Z)
  /\ uint16 7 <> 1%Z
  /\ @Set_ Sample.codec 1 [] Sample.plain "k" (Sample.VString "new") [7%Z]
     = Done (Sample.plain, Some ErrCounterChanged).
Proof.
  assert (uint16 7 <> 1%Z) as Hne by discriminate.
  split; [reflexivity | split; [exact Hne |]].
  exact (@Set_stale_counter Sample.codec 1 [] Sample.plain "k"
           (Sample.VString "new") "old" 1%Z 7%Z [] eq_refl Hne).
Defined.

Lemma end_of_range_is_final_witness :
  rowErr (fst (@next Sample.codec
                 (@Between Sample.codec Sample.letters (Sample.VString "x")
                    (Sample.VString "z") [])))
  = Some ErrEndOfRange
  /\ forall n,
       @pulls Sample.codec n
         (@Between Sample.codec Sample.letters (Sample.VString "x")
            (Sample.VString "z") [])
       = repeat endOfRange n.
Proof.
  split; [reflexivity |].
  exact (proj2 (@end_of_range_is_final Sample.codec
                  (@Between Sample.codec Sample.letters (Sample.VString "x")
                     (Sample.VString "z") [])
                  ErrEndOfRange eq_refl)).
Defined.

Lemma Between_yields_entries_within_bounds_witness :
  ascending (data Sample.letters)
  /\ map rowKey
       (@pulls Sample.codec 5
          (@Between Sample.codec Sample.letters (Sample.VString "b")
             Sample.VMax [true]))
     = ["e"; "d"; "c"; "b"; EmptyString].
Proof.
  split; [exact letters_ascending |].
  exact (f_equal (map rowKey)
           (@Between_yields_entries_within_bounds Sample.codec Sample.letters
              (Sample.VString "b") Sample.VMax [true] 1 letters_ascending)).
Defined.

Lemma range_after_writes_witness :
  ascending (data (newTable ["chars"]))
  /\ exists t errs,
       @run Sample.codec 1 Sample.scenario (newTable ["chars"])
       = Done (t, errs)
       /\ forall (lo hi : Sample.value) (reverse : list bool) (n : nat),
            @pulls Sample.codec
              (List.length (@selected Sample.codec t lo hi) + n)
              (@Between Sample.codec t lo hi reverse)
            = map rowOf (if hd false reverse
                         then rev (@selected Sample.codec t lo hi)
                         else @selected Sample.codec t lo hi)
                ++ repeat endOfRange n.
Proof.
  assert (tableOk (C := Sample.codec) (newTable ["chars"])) as Hok.
  { apply (@newTable_ok Sample.codec).
    constructor; [simpl; tauto | constructor]. }
  assert (ascending (data (newTable ["chars"]))) as Hasc by constructor.
  assert (Forall (fun o => rangeOrder (newTable ["chars"])
                             (@opOrder Sample.codec o))
            Sample.scenario) as Hall by (repeat constructor).
  split; [exact Hasc |].
  exact (@range_after_writes Sample.codec Sample_laws 0 Sample.scenario
           (newTable ["chars"]) Hok Hasc Hall).
Defined.

Lemma emptyDB_ok : registryOk Fixtures.emptyDB.
Proof.
  repeat split; try (intros; simpl in *; contradiction);
    try (intros; discriminate). constructor.
Qed.

Lemma NewTable_keeps_registry_witness :
  registryOk Fixtures.emptyDB
  /\ registryOk
       (fst (NewTable Fixtures.newKV Fixtures.readOnlyConfig
               Fixtures.emptyDB "users")).
Proof.
  split; [exact emptyDB_ok |].
  exact (NewTable_keeps_registry Fixtures.newKV Fixtures.readOnlyConfig
           Fixtures.emptyDB "users" emptyDB_ok).
Defined.

Lemma NewTable_registers_witness :
  NewTable Fixtures.newKV Fixtures.writeConfig Fixtures.emptyDB "users"
  = ({| config := {| Tables := [{| TableName := "users" |}] |};
        tables := [("users", {| indexes := []; data := [] |})] |}, None)
  /\ forall newKV' writeConfig',
       NewTable newKV' writeConfig'
         {| config := {| Tables := [{| TableName := "users" |}] |};
            tables := [("users", {| indexes := []; data := [] |})] |}
         "users"
       = ({| config := {| Tables := [{| TableName := "users" |}] |};
             tables := [("users", {| indexes := []; data := [] |})] |},
          Some ErrAlreadyExists).
Proof.
  assert (NewTable Fixtures.newKV Fixtures.writeConfig Fixtures.emptyDB
            "users"
          = ({| config := {| Tables := [{| TableName := "users" |}] |};
                tables := [("users", {| indexes := []; data := [] |})] |},
             None)) as H by reflexivity.
  split; [exact H |].
  exact (proj2 (proj2 (proj2 (proj2
           (NewTable_registers Fixtures.newKV Fixtures.writeConfig
              Fixtures.emptyDB _ "users" H))))).
Defined.

Lemma NewTable_failure_witness :
  registryOk Fixtures.emptyDB
  /\ NewTable Fixtures.newKV Fixtures.readOnlyConfig Fixtures.emptyDB "users"
     = ({| config := {| Tables := [{| TableName := "users" |}] |};
           tables := [] |},
        Some (ErrPassed (ErrForeign "read-only file system")))
  /\ Fixtures.readOnlyConfig {| Tables := [{| TableName := "users" |}] |}
     = Some (ErrForeign "read-only file system").
Proof.
  assert (NewTable Fixtures.newKV Fixtures.readOnlyConfig Fixtures.emptyDB
            "users"
          = ({| config := {| Tables := [{| TableName := "users" |}] |};
                tables := [] |},
             Some (ErrPassed (ErrForeign "read-only file system"))))
    as H by reflexivity.
  split; [exact emptyDB_ok | split; [exact H |]].
  destruct (NewTable_failure Fixtures.newKV Fixtures.readOnlyConfig
              Fixtures.emptyDB _ "users" _ emptyDB_ok H)
    as [(Hbad & _)|[(Hex & _)|(_ & _ & _ & [(err & Hkv & _)|Hw])]].
  - discriminate Hbad.
  - discriminate Hex.
  - discriminate Hkv.
  - destruct Hw as (kv & err & _ & Hwrite & He & _).
    inversion He; subst. exact Hwrite.
Defined.

Lemma Set_then_Delete_restores_witness :
  Assoc.find "j" (data Sample.held) = None
  /\ Sample.marshal (Sample.VString "lol") = Ok "lol"
  /\ exists t1 t2,
       @Set_ Sample.codec 1 ["chars"] Sample.held "j" (Sample.VString "lol")
         [] = Done (t1, None)
       /\ @Delete Sample.codec 1 ["chars"] t1 "j" [] = Done (t2, None)
       /\ (forall k, current t2 k = current Sample.held k)
       /\ forall name i2 k v,
            Index t2 name = Some i2 ->
            exists i,
              Index Sample.held name = Some i
              /\ (In k (@bucket Sample.codec i2 v)
                  <-> In k (@bucket Sample.codec i v)).
Proof.
  split; [reflexivity | split; [reflexivity |]].
  exact (@Set_then_Delete_restores Sample.codec Sample_laws 0 ["chars"]
           ["chars"] Sample.held "j" (Sample.VString "lol") "lol"
           held_ok held_order held_order eq_refl eq_refl).
Defined.

(** ** A counter supplied for a key that holds nothing *)

Section AbsentKey.
Context {C : Codec}.

(** C5.  For a key that holds no document, [Set] with an expected counter
    fails with [ErrCounterChanged] and writes nothing, whatever the
    counter; the value is one the encoder accepts.  When the counter's low
    16 bits are not zero, the first check of [Set] refuses it against the
    zero counter an absent key reads as; when they are zero that check
    passes and it is the engine's compare-and-set that reports the
    mismatch, a key that holds nothing having no counter to match. *)
Theorem Set_absent_is_counter_mismatch
    (fuel : nat) (order : list Name) (t : Table) (key : string)
    (value : Any) (enc : bytes) (c : Z) (more : list Z) :
  Assoc.find key (data t) = None ->
  Marshal value = Ok enc ->
  Set_ fuel order t key value (c :: more) = Done (t, Some ErrCounterChanged).
Proof.
  intros Habsent Henc.
  rewrite (Set_absent_with_counter fuel order t key value c more Habsent).
  now rewrite Henc.
Qed.
End AbsentKey.

Lemma Set_absent_is_counter_mismatch_witness :
  Assoc.find "k" (data (newTable [])) = None
  /\ Sample.marshal (Sample.VString "v") = Ok "v"
  /\ @Set_ Sample.codec 1 [] (newTable []) "k" (Sample.VString "v") [0%Z]
     = Done (newTable [], Some ErrCounterChanged)
  /\ @Set_ Sample.codec 1 [] (newTable []) "k" (Sample.VString "v")
       [65536%Z]
     = Done (newTable [], Some ErrCounterChanged).
Proof.
  split; [reflexivity | split; [reflexivity | split]].
  - exact (@Set_absent_is_counter_mismatch Sample.codec 1 [] (newTable [])
             "k" (Sample.VString "v") "v" 0%Z [] eq_refl eq_refl).
  - exact (@Set_absent_is_counter_mismatch Sample.codec 1 [] (newTable [])
             "k" (Sample.VString "v") "v" 65536%Z [] eq_refl eq_refl).
Defined.

(** ** A write over damaged indexes *)

Section DamagedIndexes.
Context {C : Codec}.

(** With one unit of fuel each bucket operation returns, whatever the
    keyspace holds: the compare-and-set it makes uses the counter it has
    just read. *)
Lemma deleteFromIndex_returns (fuel : nat) (i : KV.store) (indexKey : bytes)
    (key : string) :
  exists i' e, deleteFromIndex (S fuel) i indexKey key = Done (i', e).
Proof.
  simpl. unfold KV.Get.
  destruct (Assoc.find indexKey i) as [[raw c]|] eqn:F; simpl; [|eauto].
  destruct (unmarshalKeys raw) as [l|e]; [|eauto].
  destruct (removeFirst key l) as [[|x l']|]; [| |eauto].
  - unfold KV.CompareAndDelete. rewrite F, Z.eqb_refl. eauto.
  - unfold KV.CompareAndSet. rewrite F, Z.eqb_refl. eauto.
Qed.

Lemma addToIndex_returns (fuel : nat) (i : KV.store) (indexKey : bytes)
    (key : string) :
  exists i' e, addToIndex (S fuel) i indexKey key = Done (i', e).
Proof.
  simpl. unfold KV.Get.
  destruct (Assoc.find indexKey i) as [[raw c]|] eqn:F; simpl.
  - destruct (unmarshalKeys raw) as [l|e]; [|eauto].
    destruct (existsb _ l); [eauto|].
    unfold KV.CompareAndSet. rewrite F, Z.eqb_refl. eauto.
  - eauto.
Qed.

Lemma forEntries_returns
    (op : KV.store -> bytes -> string -> res (KV.store * option error))
    (entries : list diffEntry) (key : string) :
  (forall i v k, exists i' e, op i v k = Done (i', e)) ->
  forall (t : Table) (lastError : option error),
    (forall e, In e entries -> In (indexName e) (Assoc.keys (indexes t))) ->
    exists t' err, forEntries op entries key t lastError = Done (t', err).
Proof.
  intros Hop. induction entries as [|e es IH]; intros t lastError Hnames.
  - simpl. eauto.
  - simpl.
    destruct (AssocFacts.in_keys_find (indexName e) (indexes t))
      as [i0 Hi0]; [apply Hnames; now left|].
    unfold Index at 1. rewrite Hi0.
    destruct (Hop i0 (indexKey e) key) as (i1 & e1 & Hrun).
    rewrite Hrun. simpl. apply IH.
    intros e' He'. unfold withIndex. simpl.
    rewrite keys_setIndex. apply Hnames. now right.
Qed.

Lemma updateIndex_returns (fuel : nat) (order : list Name) (t : Table)
    (key : string) (old new : bytes) :
  rangeOrder t order ->
  exists t' err, updateIndex (S fuel) order t key old new = Done (t', err).
Proof.
  intros Hord. unfold updateIndex.
  pose proof (diff_names_in_order order old new) as Hnames.
  destruct (diffIndexes order old new) as [additions removals].
  simpl in Hnames.
  assert (forall n, In n order -> In n (Assoc.keys (indexes t))) as Hin
    by (intros n; apply Permutation_in; exact Hord).
  destruct (forEntries_returns (deleteFromIndex (S fuel)) removals key
              (deleteFromIndex_returns fuel) t None)
    as (t1 & e1 & H1).
  { intros e He. apply Hin, Hnames. now right. }
  rewrite H1. simpl.
  apply forEntries_keeps_documents in H1 as [_ Hk].
  apply (forEntries_returns (addToIndex (S fuel)) additions key
           (addToIndex_returns fuel)).
  intros e He. rewrite Hk. apply Hin, Hnames. now left.
Qed.

(** On a working engine, a [Set] without an expected counter of a value
    that encodes always returns nil with the encoded value stored, whatever
    state the index buckets are in: an error met while the indexes are
    brought up to date, such as a bucket that does not decode, is dropped
    and not returned. *)
Theorem Set_returns_nil_over_damaged_indexes
    (fuel : nat) (order : list Name) (t : Table) (key : string)
    (value : Any) (enc : bytes) :
  rangeOrder t order ->
  Marshal value = Ok enc ->
  exists t',
    Set_ (S fuel) order t key value [] = Done (t', None)
    /\ data t' = KV.Set_ (data t) key enc
    /\ Assoc.keys (indexes t') = Assoc.keys (indexes t).
Proof.
  intros Hord Henc. unfold Set_. simpl. rewrite Henc.
  destruct (updateIndex_returns fuel order
              (withData t (KV.Set_ (data t) key enc)) key
              (sliceOf (KV.Value (KV.Get (data t) key))) enc Hord)
    as (t' & err & Hrun).
  rewrite Hrun. simpl. exists t'. split; [reflexivity|].
  apply updateIndex_same_data in Hrun. exact Hrun.
Qed.
End DamagedIndexes.

Lemma Set_returns_nil_over_damaged_indexes_witness :
  rangeOrder Fixtures.damaged ["chars"]
  /\ Sample.marshal (Sample.VString "a") = Ok "a"
  /\ @addToIndex Sample.codec 1 Fixtures.corrupt "a" "k"
     = Done (Fixtures.corrupt, Some (ErrForeign "msgpack: invalid code"))
  /\ exists t',
       @Set_ Sample.codec 1 ["chars"] Fixtures.damaged "k"
         (Sample.VString "a") [] = Done (t', None)
       /\ data t' = [("k", ("a", 1%Z))]
       /\ Assoc.keys (indexes t') = ["chars"].
Proof.
  assert (rangeOrder Fixtures.damaged ["chars"]) as Hord
    by apply Permutation_refl.
  split; [exact Hord | split; [reflexivity | split; [reflexivity |]]].
  exact (@Set_returns_nil_over_damaged_indexes Sample.codec 0 ["chars"]
           Fixtures.damaged "k" (Sample.VString "a") "a" Hord eq_refl).
Defined.

(** ** What All hands out *)

Section AllOfTheStore.
Context {C : Codec} {L : CodecLaws C}.

(** [All] hands out every document of the table with its key, value and
    counter: in the order the keyspace stores them, or, with the reverse
    flag, in the opposite order; every later pull returns
    [ErrEndOfRange]. *)
Theorem All_hands_out_the_store
    (t : Table) (reverse : list bool) (n : nat) :
  pulls (List.length (data t) + n) (All t reverse)
  = map rowOf (if hd false reverse then rev (data t) else data t)
      ++ repeat endOfRange n.
Proof.
  assert (Any_eqb MinBounds MinBounds = true) as Hmin
    by (now apply Any_eqb_eq).
  assert (Any_eqb MaxBounds MaxBounds = true) as Hmax
    by (now apply Any_eqb_eq).
  assert (KV.rest (it (All t reverse))
          = if hd false reverse then rev (data t) else data t) as Hrest.
  { unfold All, Between. rewrite Hmin, Hmax.
    destruct reverse as [|[|] ?]; reflexivity. }
  assert (List.length (data t)
          = List.length (KV.rest (it (All t reverse)))) as Hlen.
  { rewrite Hrest. destruct (hd false reverse);
      [symmetry; apply length_rev | reflexivity]. }
  rewrite Hlen, <- Hrest.
  apply pulls_unbounded; unfold All, Between; simpl; assumption.
Qed.
End AllOfTheStore.

Lemma All_hands_out_the_store_witness :
  map rowKey (@pulls Sample.codec 6 (@All Sample.codec Sample.letters [true]))
  = ["e"; "d"; "c"; "b"; "a"; EmptyString]
  /\ map rowKey (@pulls Sample.codec 6 (@All Sample.codec Sample.letters []))
     = ["a"; "b"; "c"; "d"; "e"; EmptyString].
Proof.
  split.
  - exact (f_equal (map rowKey)
             (@All_hands_out_the_store Sample.codec Sample_laws
                Sample.letters [true] 1)).
  - exact (f_equal (map rowKey)
             (@All_hands_out_the_store Sample.codec Sample_laws
                Sample.letters [] 1)).
Defined.
